(** * Note-sequence transformations and rhythm assignment

    A shallow embedding of [midi_transform.py] (reversal, intervallic
    inversion, axis inversion, the four-part combined sequence) and of
    [create_melody.py] (random durations with a one-slot hold), followed
    by the properties of these programs.

    Python [int] is [Z].  A note is a dictionary with fixed keys, hence a
    record.  List indexing is stdpp's lookup, so that an index out of
    range is visible as [None].  The dictionary [duration_map] is a
    [gmap].  The pseudo-random generator is replaced by the list of the
    values it returns, in the order in which the program asks for them. *)

From Stdlib Require Import ZArith QArith Qreduction Lia Ascii.
From stdpp Require Import base option list gmap strings pretty.

Local Open Scope Z_scope.

(** ** Python numbers *)

Module Py.

(** The two numeric types the programs use.  A [Float] carries the exact
    rational value of a finite binary64 number. *)
Inductive number :=
| Int (z : Z)
| Float (q : Q).

(** A set of rationals that binary64 holds exactly: the integers and
    half-integers [n/1] and [n/2] (in lowest terms) with [|n| <= 2^53].
    Whenever the exact result of an operation lies in this set, the
    correctly rounded IEEE result is that very number. *)
Definition representable (q : Q) : bool :=
  ((Qden q =? 1)%positive || (Qden q =? 2)%positive)
  && (Z.abs (Qnum q) <=? 2 ^ 53).

(** [None] stands for a result this model does not follow: the float
    operation would have to round (or overflow). *)
Definition to_float (q : Q) : option Q :=
  let r := Qred q in
  if representable r then Some r else None.

Definition as_float (a : number) : option Q :=
  match a with
  | Int z => to_float (inject_Z z)
  | Float q => Some q
  end.

Definition float_op (f : Q -> Q -> Q) (a b : number) : option number :=
  x ← as_float a; y ← as_float b; Float <$> to_float (f x y).

(** [a * b] *)
Definition mul (a b : number) : option number :=
  match a, b with
  | Int x, Int y => Some (Int (x * y))
  | _, _ => float_op Qmult a b
  end.

(** [a - b] *)
Definition sub (a b : number) : option number :=
  match a, b with
  | Int x, Int y => Some (Int (x - y))
  | _, _ => float_op Qminus a b
  end.

(** [a / b] on two integers: the correctly rounded quotient. *)
Definition truediv (a b : Z) : option number :=
  if b =? 0 then None else Float <$> to_float (inject_Z a / inject_Z b)%Q.

(** Truncation toward zero of a rational. *)
Definition truncate (q : Q) : Z := Z.quot (Qnum q) (Z.pos (Qden q)).

(** [int(a)] *)
Definition int (a : number) : Z :=
  match a with
  | Int z => z
  | Float q => truncate q
  end.

(** [max(0, min(127, n))] on integers. *)
Definition clamp_midi (n : Z) : Z := Z.max 0 (Z.min 127 n).

(** [for i in range(start, stop)] over a body that may fail. *)
Definition for_range {S : Type} (body : S -> nat -> option S)
    (start stop : nat) (init : S) : option S :=
  foldl (fun acc i => s ← acc; body s i) (Some init)
        (seq start (stop - start)).

(** [for x in xs] over a body that may fail. *)
Definition for_each {S A : Type} (body : S -> A -> option S)
    (xs : list A) (init : S) : option S :=
  foldl (fun acc x => s ← acc; body s x) (Some init) xs.

End Py.

(** ** midi_transform.py *)

Module MidiTransform.

(** [{'note': .., 'velocity': .., 'time': ..}] *)
Record note_data := NoteData { note : Z; velocity : Z; time : Z }.

(** [reverse_notes]: [list(reversed(notes))]. *)
Definition reverse_notes (notes : list note_data) : list note_data :=
  reverse notes.

(** One iteration of the loop of [intervallic_inversion]. *)
Definition inversion_body (notes inverted : list note_data) (i : nat)
    : option (list note_data) :=
  cur ← notes !! i;
  prev ← notes !! (i - 1)%nat;
  let interval := note cur - note prev in
  let inverted_interval := - interval in
  last ← inverted !! (i - 1)%nat;
  let new_note := note last + inverted_interval in
  let new_note := Py.clamp_midi new_note in
  Some (inverted ++ [NoteData new_note (velocity cur) (time cur)]).

(** [intervallic_inversion].  [None] would be an [IndexError]. *)
Definition intervallic_inversion (notes : list note_data)
    : option (list note_data) :=
  match notes with
  | [] => Some []
  | first :: _ =>
      Py.for_range (inversion_body notes) 1 (length notes) [first]
  end.

(** [min(n['note'] for n in notes)] and [max(...)] on a non-empty list:
    a left-to-right scan that starts from the first element. *)
Definition min_of (first : Z) (others : list Z) : Z := foldl Z.min first others.
Definition max_of (first : Z) (others : list Z) : Z := foldl Z.max first others.

(** One iteration of the loop of [invert_notes]. *)
Definition invert_body (axis : Py.number) (inverted : list note_data)
    (n : note_data) : option (list note_data) :=
  doubled ← Py.mul (Py.Int 2) axis;
  mirrored ← Py.sub doubled (Py.Int (note n));
  let new_note := Py.int mirrored in
  let new_note := Py.clamp_midi new_note in
  Some (inverted ++ [NoteData new_note (velocity n) (time n)]).

(** [invert_notes(notes, axis=None)].  [None] as a result means that a
    float operation left the exactly modelled range. *)
Definition invert_notes (notes : list note_data) (axis : option Py.number)
    : option (list note_data) :=
  match notes with
  | [] => Some []
  | first :: others =>
      axis ← match axis with
             | None =>
                 let min_note := min_of (note first) (note <$> others) in
                 let max_note := max_of (note first) (note <$> others) in
                 Py.truediv (min_note + max_note) 2
             | Some a => Some a
             end;
      Py.for_each (invert_body axis) notes []
  end.

(** The part of [main] that builds the combined sequence, from the notes
    that [extract_first_12_notes] read ([step1_notes]); reading and
    writing files and printing are left out. *)
Definition main (step1_notes : list note_data) : option (list note_data) :=
  let step2_notes := reverse_notes step1_notes in
  step3_notes ← intervallic_inversion step1_notes;
  let step4_notes := reverse_notes step3_notes in
  let all_notes := ((step1_notes ++ step2_notes) ++ step3_notes) ++ step4_notes in
  Some all_notes.

End MidiTransform.

(** ** create_melody.py *)

Module CreateMelody.

(** [{'note': .., 'velocity': ..}], as [extract_all_notes] builds them. *)
Record note_data := NoteData { note : Z; velocity : Z }.

(** [{'type': 'note', ...}] and [{'type': 'rest', ...}]. *)
Inductive melody_event :=
| NoteEvent (note velocity duration : Z)
| RestEvent (duration : Z).

Definition duration (e : melody_event) : Z :=
  match e with
  | NoteEvent _ _ d => d
  | RestEvent d => d
  end.

(** The dictionary [duration_map]; [//] is floor division. *)
Definition duration_map (ticks_per_beat : Z) : gmap Z Z :=
  <[1 := ticks_per_beat / 8]>
  (<[2 := ticks_per_beat / 4]>
  (<[3 := ticks_per_beat / 2]>
  (<[4 := ticks_per_beat]>
  (<[5 := ticks_per_beat * 2]>
  (<[6 := ticks_per_beat * 4]> ∅))))).

(** The local variables of [create_melody_with_random_durations] that
    the loop changes ([event_number] only feeds [print]). *)
Record engine := Engine {
  melody_events : list melody_event;
  note_index : nat;
  held_note : option note_data
}.

Definition start : engine := Engine [] 0 None.

(** The loop condition [note_index < len(notes)]. *)
Definition running (notes : list note_data) (st : engine) : bool :=
  bool_decide (note_index st < length notes)%nat.

(** One iteration of the [while] loop, given the two values that
    [random.randint(1, 6)] and [random.randint(1, 3)] return.  [None]:
    the iteration raises ([IndexError], [KeyError]) or the dotted
    duration leaves the exactly modelled floats. *)
Definition loop_body (notes : list note_data) (ticks_per_beat : Z)
    (st : engine) (duration_choice modifier_choice : Z) : option engine :=
  '(current_note, note_index) ←
    match held_note st with
    | Some held => Some (held, note_index st)
    | None => n ← notes !! note_index st; Some (n, S (note_index st))
    end;
  base_duration ← duration_map ticks_per_beat !! duration_choice;
  if modifier_choice =? 1 then
    let final_duration := base_duration in
    Some (Engine
            (melody_events st ++
               [NoteEvent (note current_note) (velocity current_note) final_duration])
            note_index None)
  else if modifier_choice =? 2 then
    dotted ← Py.mul (Py.Int base_duration) (Py.Float (3 # 2));
    let final_duration := Py.int dotted in
    Some (Engine
            (melody_events st ++
               [NoteEvent (note current_note) (velocity current_note) final_duration])
            note_index None)
  else
    Some (Engine (melody_events st ++ [RestEvent base_duration])
            note_index (Some current_note)).

(** How a run over a finite list of draws ends. *)
Inductive outcome :=
| Returned (st : engine)   (* the loop condition became false *)
| Failed                   (* an iteration gave [None] *)
| Starved (st : engine).   (* the loop goes on, the draws are used up *)

(** The [while] loop from state [st]; [draws] holds one pair
    [(duration_choice, modifier_choice)] per iteration. *)
Fixpoint while_loop (notes : list note_data) (ticks_per_beat : Z)
    (draws : list (Z * Z)) (st : engine) : outcome :=
  if running notes st then
    match draws with
    | [] => Starved st
    | (duration_choice, modifier_choice) :: draws =>
        match loop_body notes ticks_per_beat st duration_choice modifier_choice with
        | None => Failed
        | Some st => while_loop notes ticks_per_beat draws st
        end
    end
  else Returned st.

(** [create_melody_with_random_durations(notes, ticks_per_beat)]. *)
Definition create_melody_with_random_durations (notes : list note_data)
    (ticks_per_beat : Z) (draws : list (Z * Z)) : outcome :=
  while_loop notes ticks_per_beat draws start.

(** The list the function returns. *)
Definition returned_events (o : outcome) : option (list melody_event) :=
  match o with
  | Returned st => Some (melody_events st)
  | _ => None
  end.

Definition default_ticks_per_beat : Z := 480.

End CreateMelody.

(** ** Definitions used to state and prove the properties *)

Module Aux.
Import MidiTransform.

(** The output of [intervallic_inversion] after the first note, by
    recursion on the remaining input: [prev_in] is the pitch of the
    previous input note, [prev_out] that of the previous output note. *)
Fixpoint invert_from (prev_in prev_out : Z) (rest : list note_data)
    : list note_data :=
  match rest with
  | [] => []
  | n :: rest =>
      let p := Py.clamp_midi (prev_out + - (note n - prev_in)) in
      NoteData p (velocity n) (time n) :: invert_from (note n) p rest
  end.

(** A pitch that a MIDI message can carry. *)
Definition midi_pitch (n : note_data) : Prop := 0 <= note n <= 127.

(** No step of the recurrence of [intervallic_inversion] leaves
    [0..127] before clamping: [out] is the output for the input [S]. *)
Definition no_clamping (S out : list note_data) : Prop :=
  forall (i : nat) cur prev last,
    (1 <= i)%nat ->
    S !! i = Some cur -> S !! (i - 1)%nat = Some prev ->
    out !! (i - 1)%nat = Some last ->
    0 <= note last - (note cur - note prev) <= 127.

(** Pitches small enough for every float operation of [invert_notes]
    with the computed axis to be exact. *)
Definition exact_pitch (n : note_data) : Prop := Z.abs (note n) <= 2 ^ 51.

End Aux.

Module MelodyAux.
Import CreateMelody.

(** One of the six values of [duration_map]. *)
Definition base_duration (ticks_per_beat d : Z) : Prop :=
  exists k, 1 <= k <= 6 /\ duration_map ticks_per_beat !! k = Some d.

(** [int(base * 1.5)]: one and a half times [base], truncated. *)
Definition dotted (base : Z) : Z := Z.quot (base * 3) 2.

(** What an iteration may append: a note of base or dotted duration, or
    a rest of base duration. *)
Definition well_formed (ticks_per_beat : Z) (e : melody_event) : Prop :=
  match e with
  | NoteEvent _ _ d =>
      exists base, base_duration ticks_per_beat base /\ (d = base \/ d = dotted base)
  | RestEvent d => base_duration ticks_per_beat d
  end.

(** The twelve durations at 480 ticks per beat. *)
Definition canonical_durations : list Z :=
  [60; 90; 120; 180; 240; 360; 480; 720; 960; 1440; 1920; 2880].

(** Values that [random.randint(1, 6)] and [random.randint(1, 3)] can
    return. *)
Definition valid_draw (draw : Z * Z) : Prop :=
  1 <= draw.1 <= 6 /\ 1 <= draw.2 <= 3.

End MelodyAux.

(** Membership of a literal in a literal list, and its negation. *)
Ltac in_list :=
repeat first [apply list_elem_of_here | apply list_elem_of_further].
Ltac not_in_list :=
let H := fresh "Hin" in
intros H;
repeat (apply elem_of_cons in H as [H|H]; [discriminate H|]);
by apply elem_of_nil in H.

(** ** MIDI messages and the other functions of the three programs *)

Module Mido.

(** The messages the programs build or read.  [Other] stands for any
    message of a file that is not of type [note_on]. *)
Inductive meta :=
| SetTempo (tempo : Z)
| TrackName (name : string)
| TimeSignature (numerator denominator clocks_per_click
                 notated_32nd_notes_per_beat : Z)
| KeySignature (key : string)
| EndOfTrack.

Inductive message :=
| NoteOn (channel note velocity time : Z)
| NoteOff (channel note velocity time : Z)
| ProgramChange (channel program time : Z)
| MetaMessage (m : meta) (time : Z)
| Other (time : Z).

(** [msg.time] *)
Definition time_of (msg : message) : Z :=
  match msg with
  | NoteOn _ _ _ t | NoteOff _ _ _ t | ProgramChange _ _ t
  | MetaMessage _ t | Other t => t
  end.

(** The library refuses a data byte outside [0..127] and a channel
    outside [0..15] with a [ValueError]: [None]. *)
Definition data_byte (x : Z) : bool := (0 <=? x) && (x <=? 127).
Definition channel_ok (c : Z) : bool := (0 <=? c) && (c <=? 15).

(** [Message('note_on', note=.., velocity=.., time=.., channel=..)] *)
Definition note_on (channel note velocity time : Z) : option message :=
  if channel_ok channel && data_byte note && data_byte velocity
  then Some (NoteOn channel note velocity time) else None.

(** [Message('note_off', note=.., velocity=.., time=.., channel=..)] *)
Definition note_off (channel note velocity time : Z) : option message :=
  if channel_ok channel && data_byte note && data_byte velocity
  then Some (NoteOff channel note velocity time) else None.

End Mido.

Module PyList.

(** [l[i]] with Python's negative indices; [None] is an [IndexError]. *)
Definition index {A : Type} (l : list A) (i : Z) : option A :=
  if 0 <=? i then l !! Z.to_nat i
  else if - Z.of_nat (length l) <=? i then l !! Z.to_nat (Z.of_nat (length l) + i)
  else None.

(** [enumerate(l)], counting from [start]. *)
Fixpoint enumerate {A : Type} (start : nat) (l : list A) : list (nat * A) :=
  match l with
  | [] => []
  | x :: l => (start, x) :: enumerate (S start) l
  end.

End PyList.

Module MidiFiles.
Import Mido MidiTransform.

(** The inner loop of [extract_first_12_notes] over one track: [inl] is
    the early [return notes], [inr] the list at the end of the track. *)
Fixpoint scan_track (track : list message) (notes : list note_data)
    : list note_data + list note_data :=
  match track with
  | [] => inr notes
  | msg :: track =>
      match msg with
      | NoteOn _ n v t =>
          if 0 <? v then
            let notes := notes ++ [NoteData n v t] in
            if (length notes =? 12)%nat then inl notes
            else scan_track track notes
          else scan_track track notes
      | _ => scan_track track notes
      end
  end.

(** The outer loop over [midi.tracks]. *)
Fixpoint scan_tracks (tracks : list (list message)) (notes : list note_data)
    : list note_data :=
  match tracks with
  | [] => notes
  | track :: tracks =>
      match scan_track track notes with
      | inl notes => notes
      | inr notes => scan_tracks tracks notes
      end
  end.

(** [extract_first_12_notes], from the tracks of the file. *)
Definition extract_first_12_notes (tracks : list (list message))
    : list note_data :=
  scan_tracks tracks [].

(** One iteration of the loop of [create_midi_file]. *)
Definition create_body (track : list message) (entry : nat * note_data)
    : option (list message) :=
  let '(i, note_data) := entry in
  on ← note_on 0 (note note_data) (velocity note_data)
         (if (i =? 0)%nat then time note_data else 0);
  off ← note_off 0 (note note_data) 0 480;
  Some (track ++ [on; off]).

(** [create_midi_file(notes, output_path, tempo)]: the track that is
    saved. *)
Definition create_midi_file (notes : list note_data) (tempo : Z)
    : option (list message) :=
  let track := [MetaMessage (SetTempo tempo) 0] in
  Py.for_each create_body (PyList.enumerate 0 notes) track.

End MidiFiles.

Module Chromatic.
Import Mido.

Definition note_names : list string :=
  ["C1"; "C#1"; "D1"; "D#1"; "E1"; "F1"; "F#1"; "G1"; "G#1"; "A1"; "A#1"; "B1"].

(** [list(range(24, 36))] *)
Definition chromatic_range : list Z := seqZ 24 12.

Definition chromatic_body (track : list message) (note : Z)
    : option (list message) :=
  on ← note_on 0 note 80 0;
  off ← note_off 0 note 0 480;
  Some (track ++ [on; off]).

(** [create_chromatic_midi], given the list [chromatic_notes] as
    [random.shuffle] leaves it: the display loop, which looks every note
    up in [note_names], and the track that is saved. *)
Definition create_chromatic_midi (chromatic_notes : list Z)
    : option (list message) :=
  _ ← mapM (fun note => PyList.index note_names (note - 24)) chromatic_notes;
  Py.for_each chromatic_body chromatic_notes
    [MetaMessage (SetTempo 500000) 0].

End Chromatic.

Module MelodyFiles.
Import Mido CreateMelody.

(** [extract_all_notes], from the tracks of the file. *)
Definition extract_all_notes (tracks : list (list message)) : list note_data :=
  foldl (fun notes track =>
           foldl (fun notes msg =>
                    match msg with
                    | NoteOn _ n v _ =>
                        if 0 <? v then notes ++ [NoteData n v] else notes
                    | _ => notes
                    end) notes track)
        [] tracks.

Definition note_names : list string :=
  ["C"; "C#"; "D"; "D#"; "E"; "F"; "F#"; "G"; "G#"; "A"; "A#"; "B"].

(** [midi_note_to_name]; [//] and [%] round toward minus infinity. *)
Definition midi_note_to_name (midi_note : Z) : option string :=
  let octave := midi_note / 12 - 1 in
  note ← PyList.index note_names (midi_note `mod` 12);
  Some (note +:+ pretty octave).

Definition duration_names : gmap Z string :=
  list_to_map
    [(60, "1/32"); (90, "1/32 dotted"); (120, "1/16"); (180, "1/16 dotted");
     (240, "1/8"); (360, "1/8 dotted"); (480, "1/4"); (720, "1/4 dotted");
     (960, "1/2"); (1440, "1/2 dotted"); (1920, "whole");
     (2880, "whole dotted")].

Definition duration_names_spanish : gmap Z string :=
  list_to_map
    [(60, "fusa"); (90, "fusa con puntillo"); (120, "semicorchea");
     (180, "semicorchea con puntillo"); (240, "corchea");
     (360, "corchea con puntillo"); (480, "negra");
     (720, "negra con puntillo"); (960, "blanca");
     (1440, "blanca con puntillo"); (1920, "redonda");
     (2880, "redonda con puntillo")].

(** [get_duration_name] and [get_duration_name_spanish]:
    [dict.get(duration_ticks, f"{duration_ticks} ticks")]. *)
Definition get_duration_name (duration_ticks ticks_per_beat : Z) : string :=
  default (pretty duration_ticks +:+ " ticks") (duration_names !! duration_ticks).

Definition get_duration_name_spanish (duration_ticks ticks_per_beat : Z)
    : string :=
  default (pretty duration_ticks +:+ " ticks")
          (duration_names_spanish !! duration_ticks).

(** The local variables of [create_midi_from_melody]. *)
Record writer := Writer {
  track : list message;
  accumulated_time : Z;
  current_measure_ticks : Z
}.

(** One iteration of its loop over the events. *)
Definition write_event (w : writer) (event : melody_event) : option writer :=
  match event with
  | NoteEvent n v d =>
      on ← note_on 0 n v (accumulated_time w);
      let ticks := current_measure_ticks w + accumulated_time w in
      off ← note_off 0 n 0 d;
      let ticks := ticks + d in
      Some (Writer (track w ++ [on; off]) 0 ticks)
  | RestEvent d =>
      Some (Writer (track w) (accumulated_time w + d) (current_measure_ticks w))
  end.

(** [create_midi_from_melody(melody_events, output_path, tempo)]: the
    local variables when the track is saved. *)
Definition create_midi_from_melody (melody_events : list melody_event)
    (tempo : Z) : option writer :=
  let header :=
    [MetaMessage (TrackName "Melody") 0;
     MetaMessage (SetTempo tempo) 0;
     MetaMessage (TimeSignature 4 4 24 8) 0;
     MetaMessage (KeySignature "C") 0;
     ProgramChange 0 0 0] in
  w ← Py.for_each write_event melody_events (Writer header 0 0);
  Some (Writer (track w ++ [MetaMessage EndOfTrack 0])
          (accumulated_time w) (current_measure_ticks w)).

End MelodyFiles.

(** ** Further definitions used to state properties *)

Module MoreAux.
Import MidiTransform.

(** The recurrence of [intervallic_inversion] over [rest], started from
    the input pitch [prev_in] and the output pitch [prev_out], never
    leaves [0..127] before clamping. *)
Fixpoint unclamped_from (prev_in prev_out : Z) (rest : list note_data) : Prop :=
  match rest with
  | [] => True
  | n :: rest =>
      let p := prev_out - (note n - prev_in) in
      0 <= p <= 127 /\ unclamped_from (note n) p rest
  end.



(** What [extract_first_12_notes] keeps of a message. *)
Definition note_on_data (msg : Mido.message) : option note_data :=
  match msg with
  | Mido.NoteOn _ n v t => if 0 <? v then Some (NoteData n v t) else None
  | _ => None
  end.



End MoreAux.

Module MelodyMore.
Import CreateMelody.

(** What [extract_all_notes] keeps of a message. *)
Definition all_note_data (msg : Mido.message) : option note_data :=
  match msg with
  | Mido.NoteOn _ n v _ => if 0 <? v then Some (NoteData n v) else None
  | _ => None
  end.

(** The note of [midi_transform.py] without its time. *)
Definition forget_time (n : MidiTransform.note_data) : note_data :=
  NoteData (MidiTransform.note n) (MidiTransform.velocity n).

(** The notes that a list of events plays, in order. *)
Definition emitted_notes (events : list melody_event) : list note_data :=
  omap (fun e => match e with
                 | NoteEvent n v _ => Some (NoteData n v)
                 | RestEvent _ => None
                 end) events.

(** The sum of a list of integers. *)
Definition sum_Z (l : list Z) : Z := foldr Z.add 0 l.

(** The number of input notes that have been played or dropped: a held
    note has been taken from the input but not played. *)
Definition played (st : engine) : nat :=
  match held_note st with
  | Some _ => (note_index st - 1)%nat
  | None => note_index st
  end.

(** The relation between the local variables and the input that every
    iteration keeps. *)
Definition consistent (notes : list note_data) (st : engine) : Prop :=
  (note_index st <= length notes)%nat /\
  (note_index st <= length (melody_events st))%nat /\
  emitted_notes (melody_events st) = take (played st) notes /\
  (forall held, held_note st = Some held ->
     (1 <= note_index st)%nat /\ notes !! (note_index st - 1)%nat = Some held).

End MelodyMore.

Module NameAux.

(** The text starts with the sharp sign. *)
Definition starts_with_sharp (text : string) : Prop :=
  match text with
  | String c _ => c = "#"%char
  | EmptyString => False
  end.

End NameAux.

(** ** Properties of the number model *)

Section Numbers.

(** Truncation does not depend on the fraction that denotes a rational. *)
Lemma truncate_Qeq (q q' : Q) : (q == q')%Q -> Py.truncate q = Py.truncate q'.
Proof.
  unfold Qeq, Py.truncate. intros H.
  rewrite <- (Z.quot_mul_cancel_r (Qnum q) (Z.pos (Qden q)) (Z.pos (Qden q')))
    by lia.
  rewrite <- (Z.quot_mul_cancel_r (Qnum q') (Z.pos (Qden q')) (Z.pos (Qden q)))
    by lia.
  rewrite H. f_equal. lia.
Qed.

Lemma truncate_inject_Z (z : Z) : Py.truncate (inject_Z z) = z.
Proof. unfold Py.truncate. simpl. apply Z.quot_1_r. Qed.

(** A rational that denotes an integer reduces to that integer. *)
Lemma Qred_inject_Z (q : Q) (z : Z) : (q == inject_Z z)%Q -> Qred q = inject_Z z.
Proof.
  intros H.
  assert (Hr : (Qred q == inject_Z z)%Q) by (by rewrite Qred_correct).
  pose proof (gcd_Qred q) as Hg.
  destruct (Qred q) as [n d]. unfold Qeq in Hr. simpl in *.
  assert (Hn : n = z * Z.pos d) by lia. subst n.
  rewrite Z.gcd_comm, Z.mul_comm, Z.gcd_mul_diag_l in Hg by lia.
  assert (d = 1%positive) as -> by lia.
  unfold inject_Z. f_equal. lia.
Qed.

(** A rational that denotes [k/2] reduces to a fraction over 1 or 2
    whose numerator is no larger than [k]. *)
Lemma Qred_half (q : Q) (k : Z) :
  (q == inject_Z k / 2)%Q ->
  (Qden (Qred q) = 1%positive \/ Qden (Qred q) = 2%positive) /\
  Z.abs (Qnum (Qred q)) <= Z.abs k.
Proof.
  intros H.
  assert (Hr : (Qred q == inject_Z k / 2)%Q) by (by rewrite Qred_correct).
  pose proof (gcd_Qred q) as Hg.
  destruct (Qred q) as [n d]. unfold Qeq in Hr. simpl in *.
  assert (Hnd : n * 2 = k * Z.pos d) by lia.
  assert (Hdiv : (Z.pos d | 2)).
  { apply Z.gauss with n; [|by rewrite Z.gcd_comm].
    exists k. lia. }
  apply Z.divide_pos_le in Hdiv; [|lia].
  split; [lia|]. nia.
Qed.

Lemma to_float_inject_Z (q : Q) (z : Z) :
  (q == inject_Z z)%Q -> Z.abs z <= 2 ^ 53 ->
  Py.to_float q = Some (inject_Z z).
Proof.
  intros H Hz. unfold Py.to_float. rewrite (Qred_inject_Z q z H).
  unfold Py.representable. simpl.
  by rewrite (proj2 (Z.leb_le _ _) Hz).
Qed.

Lemma to_float_half (q : Q) (k : Z) :
  (q == inject_Z k / 2)%Q -> Z.abs k <= 2 ^ 53 ->
  exists r, Py.to_float q = Some r /\ (r == inject_Z k / 2)%Q.
Proof.
  intros H Hk. destruct (Qred_half q k H) as [Hd Hn].
  exists (Qred q). split; [|by rewrite Qred_correct].
  unfold Py.to_float, Py.representable.
  rewrite (proj2 (Z.leb_le _ _)) by lia.
  destruct Hd as [-> | ->]; reflexivity.
Qed.

(** [2 * axis - pitch] for a float axis [k/2] and an integer pitch, then
    [int(..)]: every operation is exact and the result is [k - pitch]. *)
Lemma mirror_exact (r : Q) (k p : Z) :
  (r == inject_Z k / 2)%Q ->
  Z.abs k <= 2 ^ 52 -> Z.abs p <= 2 ^ 51 ->
  exists doubled mirrored,
    Py.mul (Py.Int 2) (Py.Float r) = Some doubled /\
    Py.sub doubled (Py.Int p) = Some mirrored /\
    Py.int mirrored = k - p.
Proof.
  intros Hr Hk Hp.
  assert (H2 : Py.to_float (inject_Z 2 * r) = Some (inject_Z k)).
  { apply to_float_inject_Z; [|lia]. rewrite Hr.
    unfold Qeq. simpl. lia. }
  assert (Hsub : Py.to_float (inject_Z k - inject_Z p) = Some (inject_Z (k - p))).
  { apply to_float_inject_Z; [|lia]. unfold Qeq. simpl. lia. }
  exists (Py.Float (inject_Z k)), (Py.Float (inject_Z (k - p))).
  split; [|split].
  - unfold Py.mul, Py.float_op, Py.as_float.
    change (Py.to_float (inject_Z 2)) with (Some (inject_Z 2)).
    cbn [mbind option_bind]. by rewrite H2.
  - unfold Py.sub, Py.float_op, Py.as_float. cbn [mbind option_bind].
    rewrite (to_float_inject_Z (inject_Z p) p) by (done || lia).
    cbn [mbind option_bind]. by rewrite Hsub.
  - apply truncate_inject_Z.
Qed.

End Numbers.

(** ** Properties of midi_transform.py *)

Section IntervallicInversion.
Import MidiTransform Aux.

Lemma invert_from_length pin pout rest :
  length (invert_from pin pout rest) = length rest.
Proof.
  revert pin pout. induction rest as [|n rest IH]; intros; simpl; [done|].
  by rewrite IH.
Qed.

(** The recurrence, read off the recursive form: the element after
    position [k] is computed from input [k], input [k+1] and output [k]. *)
Lemma invert_from_step (hin hout : note_data) rest (k : nat) cur :
  rest !! k = Some cur ->
  exists prev last,
    (hin :: rest) !! k = Some prev /\
    (hout :: invert_from (note hin) (note hout) rest) !! k = Some last /\
    (hout :: invert_from (note hin) (note hout) rest) !! S k =
      Some (NoteData (Py.clamp_midi (note last + - (note cur - note prev)))
              (velocity cur) (time cur)).
Proof.
  revert hin hout k. induction rest as [|n rest IH]; intros hin hout k Hk.
  - by destruct k.
  - destruct k as [|k].
    + injection Hk as ->. exists hin, hout. by simpl.
    + simpl in Hk.
      destruct (IH n (NoteData (Py.clamp_midi (note hout + - (note n - note hin)))
                        (velocity n) (time n)) k Hk)
        as (prev & last & Hp & Hl & Hn).
      exists prev, last. simpl in *. by repeat split.
Qed.

(** Loop invariant: after the iterations [1..k] the list [inverted] is
    the prefix of length [k+1] of the recursive form. *)
Lemma inversion_loop_prefix first rest (k : nat) :
  (k <= length rest)%nat ->
  foldl (fun acc i => s ← acc; inversion_body (first :: rest) s i)
        (Some [first]) (seq 1 k)
  = Some (take (S k) (first :: invert_from (note first) (note first) rest)).
Proof.
  induction k as [|k IH]; intros Hk.
  - simpl. by rewrite take_0.
  - rewrite seq_S, foldl_app, IH by lia.
    destruct (lookup_lt_is_Some_2 rest k ltac:(lia)) as [cur Hcur].
    destruct (invert_from_step first first rest k cur Hcur)
      as (prev & last & Hp & Hl & Hn).
    set (full := first :: invert_from (note first) (note first) rest) in *.
    replace (1 + k)%nat with (S k) by lia.
    cbn [foldl mbind option_bind]. unfold inversion_body.
    replace (S k - 1)%nat with k by lia.
    change ((first :: rest) !! S k) with (rest !! k).
    rewrite Hcur, Hp, lookup_take_lt, Hl by lia.
    cbn [mbind option_bind].
    f_equal. symmetry. by apply take_S_r.
Qed.

(** [intervallic_inversion] never fails and equals the recursive form. *)
Lemma intervallic_inversion_rec first rest :
  intervallic_inversion (first :: rest)
  = Some (first :: invert_from (note first) (note first) rest).
Proof.
  unfold intervallic_inversion, Py.for_range.
  replace (length (first :: rest) - 1)%nat with (length rest) by (simpl; lia).
  rewrite inversion_loop_prefix by lia.
  f_equal. apply take_ge. simpl. rewrite invert_from_length. lia.
Qed.

Lemma intervallic_inversion_total S :
  exists out, intervallic_inversion S = Some out /\ length out = length S.
Proof.
  destruct S as [|first rest]; [by exists []|].
  rewrite intervallic_inversion_rec. eexists; split; [done|].
  simpl. by rewrite invert_from_length.
Qed.

(** The recurrence in terms of lookups in the input and the output. *)
Lemma inversion_lookup_step first rest (i : nat) cur :
  (1 <= i)%nat -> (first :: rest) !! i = Some cur ->
  exists prev last,
    (first :: rest) !! (i - 1)%nat = Some prev /\
    (first :: invert_from (note first) (note first) rest) !! (i - 1)%nat
      = Some last /\
    (first :: invert_from (note first) (note first) rest) !! i
      = Some (NoteData (Py.clamp_midi (note last - (note cur - note prev)))
                (velocity cur) (time cur)).
Proof.
  intros Hi Hcur. destruct i as [|k]; [lia|].
  replace (S k - 1)%nat with k by lia.
  destruct (invert_from_step first first rest k cur Hcur)
    as (prev & last & Hp & Hl & Hn).
  exists prev, last. rewrite Z.add_opp_r in Hn. by repeat split.
Qed.

(** C3: for a non-empty input, the output of [intervallic_inversion]
    starts with the first input note unchanged, and at every index
    [i >= 1] its pitch is
    [clamp(output[i-1].pitch - (S[i].pitch - S[i-1].pitch), 0, 127)],
    computed from the previous output note, with the velocity and the
    time of the input note at [i]. *)
Theorem intervallic_inversion_recurrence (S : list note_data) :
  S <> [] ->
  exists out,
    intervallic_inversion S = Some out /\
    length out = length S /\
    out !! 0%nat = S !! 0%nat /\
    forall (i : nat) cur,
      (1 <= i)%nat -> S !! i = Some cur ->
      exists prev last,
        S !! (i - 1)%nat = Some prev /\
        out !! (i - 1)%nat = Some last /\
        out !! i =
          Some (NoteData (Py.clamp_midi (note last - (note cur - note prev)))
                  (velocity cur) (time cur)).
Proof.
  intros HS. destruct S as [|first rest]; [done|].
  exists (first :: invert_from (note first) (note first) rest).
  split; [apply intervallic_inversion_rec|].
  split; [simpl; by rewrite invert_from_length|].
  split; [done|].
  intros i cur Hi Hcur. by apply inversion_lookup_step.
Qed.

Lemma intervallic_inversion_recurrence_witness :
  exists out,
    intervallic_inversion [NoteData 60 80 0; NoteData 64 70 10; NoteData 62 90 20]
      = Some out /\
    out !! 1%nat = Some (NoteData 56 70 10).
Proof.
  destruct (intervallic_inversion_recurrence
              [NoteData 60 80 0; NoteData 64 70 10; NoteData 62 90 20])
    as (out & Hout & _ & H0 & Hstep); [discriminate|].
  exists out. split; [exact Hout|].
  destruct (Hstep 1%nat (NoteData 64 70 10)) as (prev & last & Hp & Hl & Hn);
    [lia | reflexivity |].
  simpl in Hp, Hl. rewrite H0 in Hl. simpl in Hl.
  injection Hp as <-. injection Hl as <-. exact Hn.
Defined.

(** Clamping at one step is carried into the later steps: the unclamped
    values for this input would be 10, -10, 0, -20. *)
Example clamping_propagates :
  intervallic_inversion
    [NoteData 10 80 0; NoteData 30 80 0; NoteData 20 80 0; NoteData 40 80 0]
  = Some [NoteData 10 80 0; NoteData 0 80 0; NoteData 10 80 0; NoteData 0 80 0].
Proof. reflexivity. Qed.

(** C10: for a non-empty input on which no step of the recurrence
    leaves [0..127] before clamping, the output pitch at every index [i]
    is [2 * S[0].pitch - S[i].pitch]. *)
Theorem inversion_reflects_when_unclamped (S : list note_data) :
  S <> [] ->
  exists out first,
    intervallic_inversion S = Some out /\
    S !! 0%nat = Some first /\
    (no_clamping S out ->
     forall (i : nat) cur, S !! i = Some cur ->
       exists o, out !! i = Some o /\ note o = 2 * note first - note cur).
Proof.
  intros HS. destruct S as [|first rest]; [done|].
  exists (first :: invert_from (note first) (note first) rest), first.
  split; [apply intervallic_inversion_rec|]. split; [done|].
  intros Hno i. induction i as [|k IH]; intros cur Hcur.
  - injection Hcur as <-. exists first. split; [done|lia].
  - destruct (inversion_lookup_step first rest (S k) cur ltac:(lia) Hcur)
      as (prev & last & Hp & Hl & Hn).
    pose proof (Hno (S k) cur prev last ltac:(lia) Hcur Hp Hl) as Hrange.
    replace (S k - 1)%nat with k in * by lia.
    destruct (IH prev Hp) as (o & Ho & Hnote).
    rewrite Hl in Ho. injection Ho as <-.
    eexists. split; [exact Hn|]. simpl. unfold Py.clamp_midi. lia.
Qed.

Lemma inversion_reflects_when_unclamped_witness :
  exists out,
    intervallic_inversion [NoteData 60 80 0; NoteData 64 70 10; NoteData 62 90 20]
      = Some out /\
    exists o, out !! 2%nat = Some o /\ note o = 58.
Proof.
  destruct (inversion_reflects_when_unclamped
              [NoteData 60 80 0; NoteData 64 70 10; NoteData 62 90 20])
    as (out & first & Hout & Hfirst & H); [discriminate|].
  exists out. split; [exact Hout|].
  injection Hfirst as <-.
  apply (H ltac:(
    vm_compute in Hout; injection Hout as <-;
    intros [|[|[|i]]] cur prev last Hi Hc Hp Hl; simpl in *;
    try lia; try discriminate;
    injection Hc as <-; injection Hp as <-; injection Hl as <-; simpl; lia)
    2%nat (NoteData 62 90 20) eq_refl).
Defined.

End IntervallicInversion.

Section AxisInversion.
Import MidiTransform Aux.

(** [min_of] and [max_of] return an element that bounds all the others. *)
Lemma min_of_spec first others :
  min_of first others ∈ first :: others /\
  forall p, p ∈ first :: others -> min_of first others <= p.
Proof.
  unfold min_of. revert first.
  induction others as [|x others IH]; intros first; simpl.
  - split; [by left|]. intros p Hp. apply list_elem_of_singleton in Hp. lia.
  - destruct (IH (Z.min first x)) as [Hin Hle]. split.
    + apply elem_of_cons in Hin as [Hin|Hin]; [|by do 2 right].
      rewrite Hin. destruct (Z.min_spec first x) as [[_ ->]|[_ ->]];
        [by left | right; by left].
    + intros p Hp.
      assert (Hmin : foldl Z.min (Z.min first x) others <= Z.min first x)
        by (apply Hle; by left).
      apply elem_of_cons in Hp as [->|Hp]; [lia|].
      apply elem_of_cons in Hp as [->|Hp]; [lia|].
      apply Hle. by right.
Qed.

Lemma max_of_spec first others :
  max_of first others ∈ first :: others /\
  forall p, p ∈ first :: others -> p <= max_of first others.
Proof.
  unfold max_of. revert first.
  induction others as [|x others IH]; intros first; simpl.
  - split; [by left|]. intros p Hp. apply list_elem_of_singleton in Hp. lia.
  - destruct (IH (Z.max first x)) as [Hin Hle]. split.
    + apply elem_of_cons in Hin as [Hin|Hin]; [|by do 2 right].
      rewrite Hin. destruct (Z.max_spec first x) as [[_ ->]|[_ ->]];
        [right; by left | by left].
    + intros p Hp.
      assert (Hmax : Z.max first x <= foldl Z.max (Z.max first x) others)
        by (apply Hle; by left).
      apply elem_of_cons in Hp as [->|Hp]; [lia|].
      apply elem_of_cons in Hp as [->|Hp]; [lia|].
      apply Hle. by right.
Qed.

Lemma for_each_failed {St A : Type} (body : St -> A -> option St) (xs : list A) :
  foldl (fun acc x => s ← acc; body s x) None xs = None.
Proof. by induction xs. Qed.

(** Whatever the axis, the loop of [invert_notes] appends one note per
    input note, with a clamped pitch and the input's velocity and time. *)
Lemma invert_loop_shape axis notes acc out :
  Py.for_each (invert_body axis) notes acc = Some out ->
  exists tail,
    out = acc ++ tail /\ Forall midi_pitch tail /\
    velocity <$> tail = velocity <$> notes /\ time <$> tail = time <$> notes.
Proof.
  unfold Py.for_each. revert acc.
  induction notes as [|n notes IH]; intros acc H; simpl in H.
  - injection H as <-. exists []. by rewrite app_nil_r.
  - destruct (invert_body axis acc n) as [acc'|] eqn:Hbody;
      [|by rewrite for_each_failed in H].
    destruct (IH acc' H) as (tail & -> & Hpitch & Hvel & Htime).
    unfold invert_body in Hbody.
    destruct (Py.mul (Py.Int 2) axis) as [doubled|]; [|done].
    simpl in Hbody.
    destruct (Py.sub doubled (Py.Int (note n))) as [mirrored|]; [|done].
    injection Hbody as <-.
    eexists (_ :: tail). rewrite <- app_assoc. split; [done|].
    split; [|split; simpl; by f_equal].
    constructor; [|done]. unfold midi_pitch, Py.clamp_midi. simpl. lia.
Qed.

(** With a float axis [k/2] and pitches in the exact range the loop
    succeeds and mirrors every pitch to [k - pitch], clamped. *)
Lemma invert_loop_exact (r : Q) (k : Z) notes acc :
  (r == inject_Z k / 2)%Q -> Z.abs k <= 2 ^ 52 ->
  Forall exact_pitch notes ->
  Py.for_each (invert_body (Py.Float r)) notes acc
  = Some (acc ++ ((fun n => NoteData (Py.clamp_midi (k - note n))
                              (velocity n) (time n)) <$> notes)).
Proof.
  intros Hr Hk. unfold Py.for_each. revert acc.
  induction notes as [|n notes IH]; intros acc Hall; simpl.
  - by rewrite app_nil_r.
  - apply Forall_cons in Hall as [Hn Hall].
    destruct (mirror_exact r k (note n) Hr Hk Hn)
      as (doubled & mirrored & Hmul & Hsub & Hint).
    unfold invert_body at 2. rewrite Hmul. simpl. rewrite Hsub. simpl.
    rewrite Hint, IH by done. by rewrite <- app_assoc.
Qed.

(** The exact rational [2 * ((lo + hi) / 2) - p], truncated. *)
Lemma truncate_mirror (lo hi p : Z) :
  Py.truncate (2 * (inject_Z (lo + hi) / 2) - inject_Z p)%Q = lo + hi - p.
Proof.
  rewrite (truncate_Qeq _ (inject_Z (lo + hi - p))).
  - apply truncate_inject_Z.
  - unfold Qeq. simpl. lia.
Qed.

(** C4: for a non-empty input and no axis argument, [invert_notes]
    takes as axis the exact midpoint [(lo + hi) / 2] of the least and the
    greatest pitch, not rounded to an integer, and maps every pitch [p]
    to [clamp(truncate(2 * axis - p), 0, 127)], truncating toward zero;
    velocity and time are those of the input note.  The pitches are
    taken within the range in which the float operations are exact
    (all MIDI pitches are). *)
Theorem invert_notes_default_axis (S : list note_data) :
  S <> [] -> Forall exact_pitch S ->
  exists lo hi,
    lo ∈ note <$> S /\ hi ∈ note <$> S /\
    (forall p, p ∈ note <$> S -> lo <= p <= hi) /\
    let axis := (inject_Z (lo + hi) / 2)%Q in
    invert_notes S None =
      Some ((fun n =>
               NoteData
                 (Py.clamp_midi (Py.truncate (2 * axis - inject_Z (note n))%Q))
                 (velocity n) (time n)) <$> S).
Proof.
  intros HS Hexact. destruct S as [|first others]; [done|].
  destruct (min_of_spec (note first) (note <$> others)) as [Hlo_in Hlo].
  destruct (max_of_spec (note first) (note <$> others)) as [Hhi_in Hhi].
  set (lo := min_of (note first) (note <$> others)) in *.
  set (hi := max_of (note first) (note <$> others)) in *.
  assert (Hbound : forall p, p ∈ note <$> first :: others -> Z.abs p <= 2 ^ 51).
  { intros p Hp. apply list_elem_of_fmap in Hp as (n & -> & Hn).
    rewrite Forall_forall in Hexact. by apply Hexact. }
  pose proof (Hbound lo Hlo_in) as Hlo_b.
  pose proof (Hbound hi Hhi_in) as Hhi_b.
  exists lo, hi. split; [done|]. split; [done|].
  split; [intros p Hp; split; [by apply Hlo | by apply Hhi]|].
  intros axis. unfold invert_notes. fold lo hi.
  destruct (to_float_half (inject_Z (lo + hi) / inject_Z 2) (lo + hi))
    as (r & Hfloat & Hr); [done | lia |].
  unfold Py.truediv. change (2 =? 0) with false. cbv iota.
  rewrite Hfloat. cbn [fmap option_fmap option_map mbind option_bind].
  rewrite (invert_loop_exact r (lo + hi)) by (done || lia).
  f_equal. rewrite app_nil_l. apply list_fmap_ext. intros i n Hn.
  unfold axis. by rewrite truncate_mirror.
Qed.

Lemma invert_notes_default_axis_witness :
  exists lo hi,
    lo ∈ [60; 61; 67] /\ hi ∈ [60; 61; 67] /\
    (forall p, p ∈ [60; 61; 67] -> lo <= p <= hi) /\
    invert_notes [NoteData 60 80 0; NoteData 61 70 5; NoteData 67 90 9] None =
      Some ((fun n =>
               NoteData
                 (Py.clamp_midi
                    (Py.truncate (2 * (inject_Z (lo + hi) / 2) - inject_Z (note n))%Q))
                 (velocity n) (time n))
              <$> [NoteData 60 80 0; NoteData 61 70 5; NoteData 67 90 9]).
Proof.
  apply (invert_notes_default_axis
           [NoteData 60 80 0; NoteData 61 70 5; NoteData 67 90 9]).
  - discriminate.
  - repeat constructor; unfold exact_pitch; simpl; lia.
Defined.

Example default_axis_run :
  invert_notes [NoteData 60 80 0; NoteData 61 70 5; NoteData 67 90 9] None
  = Some [NoteData 67 80 0; NoteData 66 70 5; NoteData 60 90 9].
Proof. reflexivity. Qed.

(** The integer form of the same result: [lo + hi - p], clamped. *)
Corollary default_axis_integer_form first others :
  Forall exact_pitch (first :: others) ->
  let lo := min_of (note first) (note <$> others) in
  let hi := max_of (note first) (note <$> others) in
  invert_notes (first :: others) None =
    Some ((fun n => NoteData (Py.clamp_midi (lo + hi - note n))
                      (velocity n) (time n)) <$> first :: others).
Proof.
  intros Hexact lo hi.
  destruct (min_of_spec (note first) (note <$> others)) as [Hlo_in _].
  destruct (max_of_spec (note first) (note <$> others)) as [Hhi_in _].
  fold lo in Hlo_in. fold hi in Hhi_in.
  assert (Hbound : forall p, p ∈ note <$> first :: others -> Z.abs p <= 2 ^ 51).
  { intros p Hp. apply list_elem_of_fmap in Hp as (n & -> & Hn).
    rewrite Forall_forall in Hexact. by apply Hexact. }
  pose proof (Hbound lo Hlo_in) as Hlo_b.
  pose proof (Hbound hi Hhi_in) as Hhi_b.
  unfold invert_notes. fold lo hi.
  destruct (to_float_half (inject_Z (lo + hi) / inject_Z 2) (lo + hi))
    as (r & Hfloat & Hr); [done | lia |].
  unfold Py.truediv. change (2 =? 0) with false. cbv iota.
  rewrite Hfloat. cbn [fmap option_fmap option_map mbind option_bind].
  by rewrite (invert_loop_exact r (lo + hi)) by (done || lia).
Qed.

(** The axis of [60, 61] is 60.5: an axis rounded to 60 or to 61 would
    give [60, 59] or [62, 61]. *)
Example axis_is_not_rounded :
  invert_notes [NoteData 60 80 0; NoteData 61 80 0] None
  = Some [NoteData 61 80 0; NoteData 60 80 0].
Proof. reflexivity. Qed.

(** Truncation is toward zero: [int(-1.5)] is [-1] and [int(1.5)] is [1]. *)
Example truncation_toward_zero :
  Py.truncate (-3 # 2) = -1 /\ Py.truncate (3 # 2) = 1.
Proof. split; reflexivity. Qed.

(** With the explicit axis 30.25 the pitch 59 maps to [int(1.5) = 1], not
    to the nearest integer 2. *)
Example explicit_axis_truncates :
  invert_notes [NoteData 59 80 0] (Some (Py.Float (121 # 4)))
  = Some [NoteData 1 80 0].
Proof. reflexivity. Qed.

End AxisInversion.

Section Transformers.
Import MidiTransform Aux.

Lemma midi_pitch_exact n : midi_pitch n -> exact_pitch n.
Proof. unfold midi_pitch, exact_pitch. lia. Qed.

Lemma invert_from_midi pin pout rest :
  Forall midi_pitch (invert_from pin pout rest).
Proof.
  revert pin pout. induction rest as [|n rest IH]; intros; simpl; [done|].
  constructor; [|done]. unfold midi_pitch, Py.clamp_midi. simpl. lia.
Qed.

(** C6: when every input pitch lies in [0..127], so does every pitch in
    the output of [reverse_notes], of [intervallic_inversion] and of
    [invert_notes] (with the computed axis, which always succeeds, and
    with any given axis). *)
Theorem transformers_keep_midi_range (S : list note_data) :
  Forall midi_pitch S ->
  Forall midi_pitch (reverse_notes S) /\
  (exists out, intervallic_inversion S = Some out /\ Forall midi_pitch out) /\
  (exists out, invert_notes S None = Some out /\ Forall midi_pitch out) /\
  (forall axis out, invert_notes S axis = Some out -> Forall midi_pitch out).
Proof.
  intros Hin.
  assert (Hany : forall axis out,
             invert_notes S axis = Some out -> Forall midi_pitch out).
  { intros axis out H. destruct S as [|first others];
      [by injection H as <-|].
    unfold invert_notes in H.
    match type of H with (?a ≫= _) = _ => destruct a as [ax|]; [|done] end.
    simpl in H.
    apply invert_loop_shape in H as (tail & -> & Htail & _). done. }
  split; [by apply Forall_reverse|]. split; [|split; [|exact Hany]].
  - destruct S as [|first rest]; [by exists []|].
    rewrite intervallic_inversion_rec. eexists; split; [done|].
    apply Forall_cons in Hin as [Hfirst _].
    constructor; [done | apply invert_from_midi].
  - destruct S as [|first others]; [by exists []|].
    rewrite default_axis_integer_form
      by (eapply Forall_impl; [exact Hin | apply midi_pitch_exact]).
    eexists; split; [done|]. eapply Hany.
    apply default_axis_integer_form.
    eapply Forall_impl; [exact Hin | apply midi_pitch_exact].
Qed.

Lemma transformers_keep_midi_range_witness :
  Forall midi_pitch (reverse_notes [NoteData 0 80 0; NoteData 127 80 0]) /\
  (exists out, intervallic_inversion [NoteData 0 80 0; NoteData 127 80 0]
               = Some out /\ Forall midi_pitch out).
Proof.
  destruct (transformers_keep_midi_range [NoteData 0 80 0; NoteData 127 80 0])
    as (Hrev & Hinv & _).
  - repeat constructor; unfold midi_pitch; simpl; lia.
  - split; [exact Hrev | exact Hinv].
Defined.

(** C7: the combined sequence of [main] is the input, its reversal, its
    intervallic inversion and the reversal of that inversion, in this
    order, and it is four times as long as the input. *)
Theorem main_concatenates_four_parts (S : list note_data) :
  exists inv all,
    intervallic_inversion S = Some inv /\
    main S = Some all /\
    all = S ++ reverse_notes S ++ inv ++ reverse_notes inv /\
    length all = (4 * length S)%nat.
Proof.
  destruct (intervallic_inversion_total S) as (inv & Hinv & Hlen).
  exists inv, (S ++ reverse_notes S ++ inv ++ reverse_notes inv).
  split; [done|]. split; [|split; [done|]].
  - unfold main. rewrite Hinv. simpl. by rewrite <- !app_assoc.
  - unfold reverse_notes. rewrite !length_app, !length_reverse, Hlen. lia.
Qed.

End Transformers.

(** ** Properties of create_melody.py *)

Section RhythmEngine.
Import CreateMelody MelodyAux.

Lemma duration_map_lookup tpb k d :
  duration_map tpb !! k = Some d ->
  (k = 1 /\ d = tpb / 8) \/ (k = 2 /\ d = tpb / 4) \/ (k = 3 /\ d = tpb / 2) \/
  (k = 4 /\ d = tpb) \/ (k = 5 /\ d = tpb * 2) \/ (k = 6 /\ d = tpb * 4).
Proof.
  unfold duration_map. rewrite !lookup_insert_Some, lookup_empty.
  intros [[<- <-]|[_ [[<- <-]|[_ [[<- <-]|[_ [[<- <-]|[_ [[<- <-]|[_ [[<- <-]|[_ H]]]]]]]]]]]];
    [tauto..|done].
Qed.

Lemma duration_map_base tpb k d :
  duration_map tpb !! k = Some d -> base_duration tpb d.
Proof.
  intros H. exists k. split; [|done].
  apply duration_map_lookup in H. lia.
Qed.

Lemma duration_map_valid tpb k :
  1 <= k <= 6 -> is_Some (duration_map tpb !! k).
Proof.
  intros Hk.
  assert (k = 1 \/ k = 2 \/ k = 3 \/ k = 4 \/ k = 5 \/ k = 6)
    as [->|[->|[->|[->|[->| ->]]]]] by lia; by eexists.
Qed.

Lemma to_float_Some q r : Py.to_float q = Some r -> (r == q)%Q.
Proof.
  unfold Py.to_float. destruct (Py.representable (Qred q)); [|done].
  intros [= <-]. apply Qred_correct.
Qed.

(** [int(base_duration * 1.5)], when the product is exact. *)
Lemma dotted_exact base x :
  Py.mul (Py.Int base) (Py.Float (3 # 2)) = Some x -> Py.int x = dotted base.
Proof.
  unfold Py.mul, Py.float_op, Py.as_float.
  destruct (Py.to_float (inject_Z base)) as [b|] eqn:Hb; [|done].
  cbn [mbind option_bind].
  destruct (Py.to_float (b * (3 # 2))) as [r|] eqn:Hr; [|done].
  intros [= <-]. apply to_float_Some in Hb, Hr.
  unfold Py.int, dotted.
  rewrite (truncate_Qeq r (inject_Z base * (3 # 2))) by (by rewrite Hr, Hb).
  unfold Py.truncate. simpl. done.
Qed.

(** What one iteration does to the state. *)
Lemma loop_body_spec notes tpb st d m st' :
  loop_body notes tpb st d m = Some st' ->
  exists cur base,
    duration_map tpb !! d = Some base /\
    match held_note st with
    | Some held => cur = held /\ note_index st' = note_index st
    | None => notes !! note_index st = Some cur /\
              note_index st' = S (note_index st)
    end /\
    ((m = 1 /\ held_note st' = None /\
      melody_events st' =
        melody_events st ++ [NoteEvent (note cur) (velocity cur) base]) \/
     (m = 2 /\ held_note st' = None /\
      melody_events st' =
        melody_events st ++ [NoteEvent (note cur) (velocity cur) (dotted base)]) \/
     (m <> 1 /\ m <> 2 /\ held_note st' = Some cur /\
      melody_events st' = melody_events st ++ [RestEvent base])).
Proof.
  unfold loop_body. intros H.
  assert (exists cur idx,
    match held_note st with
    | Some held => Some (held, note_index st)
    | None => n ← notes !! note_index st; Some (n, S (note_index st))
    end = Some (cur, idx) /\
    match held_note st with
    | Some held => cur = held /\ idx = note_index st
    | None => notes !! note_index st = Some cur /\ idx = S (note_index st)
    end) as (cur & idx & Hsel & Hcur).
  { destruct (held_note st) as [held|]; [by exists held, (note_index st)|].
    destruct (notes !! note_index st) as [n|]; [|done].
    by exists n, (S (note_index st)). }
  rewrite Hsel in H. cbn [mbind option_bind] in H.
  destruct (duration_map tpb !! d) as [base|]; [|done].
  cbn [mbind option_bind] in H.
  exists cur, base. split; [done|].
  destruct (Z.eqb_spec m 1) as [->|Hm1].
  { injection H as <-. split; [by destruct (held_note st)|]. by left. }
  destruct (Z.eqb_spec m 2) as [->|Hm2].
  { destruct (Py.mul (Py.Int base) (Py.Float (3 # 2))) as [x|] eqn:Hx; [|done].
    injection H as <-. split; [by destruct (held_note st)|].
    right; left. simpl. by rewrite (dotted_exact base x Hx). }
  injection H as <-. split; [by destruct (held_note st)|].
  right; right. by simpl.
Qed.

Lemma loop_body_well_formed notes tpb st d m st' :
  loop_body notes tpb st d m = Some st' ->
  Forall (well_formed tpb) (melody_events st) ->
  Forall (well_formed tpb) (melody_events st').
Proof.
  intros H Hwf.
  destruct (loop_body_spec _ _ _ _ _ _ H) as (cur & base & Hbase & _ & Hcase).
  apply duration_map_base in Hbase.
  destruct Hcase as [(_ & _ & ->)|[(_ & _ & ->)|(_ & _ & _ & ->)]];
    apply Forall_app; (split; [done|]); constructor; try done; simpl.
  - exists base. auto.
  - exists base. auto.
Qed.

(** Every state that the loop reaches, at its end or when the draws are
    used up, holds well-formed events only. *)
Lemma while_loop_well_formed notes tpb draws st :
  Forall (well_formed tpb) (melody_events st) ->
  match while_loop notes tpb draws st with
  | Returned st' | Starved st' => Forall (well_formed tpb) (melody_events st')
  | Failed => True
  end.
Proof.
  revert st. induction draws as [|[d m] draws IH]; intros st Hwf; simpl.
  - by destruct (running notes st).
  - destruct (running notes st); [|done].
    destruct (loop_body notes tpb st d m) as [st'|] eqn:Hbody; [|done].
    apply IH. by eapply loop_body_well_formed.
Qed.

Lemma returned_well_formed notes tpb draws evs :
  returned_events (create_melody_with_random_durations notes tpb draws) = Some evs ->
  Forall (well_formed tpb) evs.
Proof.
  unfold create_melody_with_random_durations.
  pose proof (while_loop_well_formed notes tpb draws start) as H.
  destruct (while_loop notes tpb draws start) as [st| |st]; [|done..].
  intros [= <-]. by apply H.
Qed.

Lemma base_duration_480 d :
  base_duration 480 d -> d ∈ [60; 120; 240; 480; 960; 1920].
Proof.
  intros (k & _ & Hk). apply duration_map_lookup in Hk.
  destruct Hk as [[_ ->]|[[_ ->]|[[_ ->]|[[_ ->]|[[_ ->]|[_ ->]]]]]];
    vm_compute; in_list.
Qed.

Lemma well_formed_480 e :
  well_formed 480 e -> duration e ∈ canonical_durations.
Proof.
  assert (Hb : forall d, base_duration 480 d ->
                 d ∈ canonical_durations /\ dotted d ∈ canonical_durations).
  { intros d Hd. apply base_duration_480 in Hd.
    unfold canonical_durations.
    repeat (apply elem_of_cons in Hd as [->|Hd]; [split; vm_compute; in_list|]).
    by apply elem_of_nil in Hd. }
  destruct e as [p v d|d]; simpl.
  - intros (base & Hbase & [->| ->]); by apply Hb.
  - intros Hd. by apply Hb.
Qed.

(** C5: at 480 ticks per beat every event that
    [create_melody_with_random_durations] returns, note or rest, has a
    duration among 60, 90, 120, 180, 240, 360, 480, 720, 960, 1440, 1920
    and 2880. *)
Theorem emitted_durations_canonical notes draws evs :
  returned_events
    (create_melody_with_random_durations notes default_ticks_per_beat draws)
    = Some evs ->
  Forall (fun e => duration e ∈ canonical_durations) evs.
Proof.
  intros H. apply returned_well_formed in H.
  eapply Forall_impl; [exact H|]. apply well_formed_480.
Qed.

Lemma emitted_durations_canonical_witness :
  Forall (fun e => duration e ∈ canonical_durations)
    [RestEvent 60; NoteEvent 60 80 2880; NoteEvent 62 70 240].
Proof.
  apply (emitted_durations_canonical
           [NoteData 60 80; NoteData 62 70] [(1, 3); (6, 2); (3, 1)]).
  reflexivity.
Defined.

(** C9: every rest that [create_melody_with_random_durations] returns
    has one of the six values of [duration_map] as its duration; the
    factor 1.5 is applied in the branch that appends a note only. *)
Theorem rests_have_base_duration notes tpb draws evs :
  returned_events (create_melody_with_random_durations notes tpb draws) = Some evs ->
  forall d, RestEvent d ∈ evs ->
    exists k, 1 <= k <= 6 /\ duration_map tpb !! k = Some d.
Proof.
  intros H d Hd. apply returned_well_formed in H.
  rewrite Forall_forall in H. exact (H _ Hd).
Qed.

Lemma rests_have_base_duration_witness :
  exists k, 1 <= k <= 6 /\ duration_map 480 !! k = Some 60.
Proof.
  apply (rests_have_base_duration
           [NoteData 60 80; NoteData 62 70] 480 [(1, 3); (6, 2); (3, 1)]
           [RestEvent 60; NoteEvent 60 80 2880; NoteEvent 62 70 240]).
  - reflexivity.
  - by left.
Defined.

(** At 480 ticks per beat a rest lasts 60, 120, 240, 480, 960 or 1920
    ticks, never one of the dotted values. *)
Corollary rests_undotted_480 notes draws evs d :
  returned_events (create_melody_with_random_durations notes 480 draws) = Some evs ->
  RestEvent d ∈ evs ->
  d ∈ [60; 120; 240; 480; 960; 1920] /\ d ∉ [90; 180; 360; 720; 1440; 2880].
Proof.
  intros H Hd. apply returned_well_formed in H.
  rewrite Forall_forall in H. apply H, base_duration_480 in Hd.
  split; [done|].
  repeat (apply elem_of_cons in Hd as [->|Hd]; [not_in_list|]).
  by apply elem_of_nil in Hd.
Qed.

(** With draws that [randint] can return, and 480 ticks per beat, no
    iteration fails: the run returns or asks for more draws. *)
Lemma loop_body_defined notes st d m :
  running notes st = true -> 1 <= d <= 6 ->
  is_Some (loop_body notes 480 st d m).
Proof.
  intros Hrun Hd. unfold running in Hrun. apply bool_decide_eq_true in Hrun.
  destruct (lookup_lt_is_Some_2 notes (note_index st) Hrun) as [n Hn].
  unfold loop_body. rewrite Hn.
  assert (d = 1 \/ d = 2 \/ d = 3 \/ d = 4 \/ d = 5 \/ d = 6)
    as [->|[->|[->|[->|[->| ->]]]]] by lia;
    destruct (held_note st); cbn [mbind option_bind];
    match goal with
    | |- context [duration_map 480 !! ?k] =>
        let v := eval vm_compute in (duration_map 480 !! k) in
        change (duration_map 480 !! k) with v
    end;
    cbn [mbind option_bind];
    (destruct (m =? 1); [by eexists|]);
    (destruct (m =? 2); [|by eexists]);
    match goal with
    | |- context [Py.mul ?a ?b] =>
        let v := eval vm_compute in (Py.mul a b) in
        change (Py.mul a b) with v
    end;
    by eexists.
Qed.

Lemma while_loop_never_fails notes draws st :
  Forall valid_draw draws -> while_loop notes 480 draws st <> Failed.
Proof.
  revert st. induction draws as [|[d m] draws IH]; intros st Hvalid; simpl.
  - by destruct (running notes st).
  - destruct (running notes st) eqn:Hrun; [|done].
    apply Forall_cons in Hvalid as [[Hd _] Hvalid]. simpl in Hd.
    destruct (loop_body_defined notes st d m Hrun Hd) as [st' ->].
    by apply IH.
Qed.

(** A note held in the middle of the input is played on the next
    iteration, before the following input note. *)
Example held_note_is_replayed :
  create_melody_with_random_durations
    [NoteData 60 80; NoteData 62 70] 480 [(4, 3); (4, 1); (4, 1)]
  = Returned (Engine [RestEvent 480; NoteEvent 60 80 480; NoteEvent 62 70 480]
                2 None).
Proof. reflexivity. Qed.

(** When the iteration that takes the last input note draws neither 1
    nor 2 as modifier, the loop ends at once: the note stays in
    [held_note] and does not appear in the returned events. *)
Lemma last_silence_returns_holding notes tpb st cur d base m more :
  held_note st = None ->
  S (note_index st) = length notes ->
  notes !! note_index st = Some cur ->
  duration_map tpb !! d = Some base ->
  m <> 1 -> m <> 2 ->
  while_loop notes tpb ((d, m) :: more) st
  = Returned (Engine (melody_events st ++ [RestEvent base])
                (length notes) (Some cur)).
Proof.
  intros Hheld Hidx Hcur Hbase Hm1 Hm2.
  assert (Hbody : loop_body notes tpb st d m
                  = Some (Engine (melody_events st ++ [RestEvent base])
                            (length notes) (Some cur))).
  { unfold loop_body. rewrite Hheld, Hcur. cbn [mbind option_bind].
    rewrite Hbase. cbn [mbind option_bind].
    destruct (Z.eqb_spec m 1); [done|]. destruct (Z.eqb_spec m 2); [done|].
    by rewrite Hidx. }
  simpl. unfold running at 1.
  rewrite bool_decide_eq_true_2 by lia. rewrite Hbody.
  destruct more as [|[d' m'] more]; simpl; unfold running; simpl;
    by rewrite bool_decide_eq_false_2 by lia.
Qed.

(** C1 (the program at the input on which the claim fails): with one
    input note and the draws 4 and 3 the run ends after one iteration,
    whatever draws remain: the note is still in [held_note] and only a
    rest has been returned. *)
Theorem final_silence_ends_the_run (more : list (Z * Z)) :
  create_melody_with_random_durations [NoteData 60 80] 480 ((4, 3) :: more)
  = Returned (Engine [RestEvent 480] 1 (Some (NoteData 60 80))).
Proof.
  unfold create_melody_with_random_durations.
  by rewrite (last_silence_returns_holding _ 480 start (NoteData 60 80) 4 480 3 more).
Qed.

(** C2 (the program at the scenario of the claim): the draws (4, 3) and
    then (4, 1) on the single note 60/80 return the rest alone; the
    second pair of draws is not used and the note is not emitted. *)
Theorem single_note_scenario :
  let run := create_melody_with_random_durations
               [NoteData 60 80] 480 [(4, 3); (4, 1)] in
  run = Returned (Engine [RestEvent 480] 1 (Some (NoteData 60 80))) /\
  returned_events run = Some [RestEvent 480] /\
  returned_events run <> Some [RestEvent 480; NoteEvent 60 80 480].
Proof. by repeat split. Qed.

(** C8: on the empty input [reverse_notes], [intervallic_inversion] and
    [invert_notes] return the empty list, and
    [create_melody_with_random_durations] returns no event without
    running an iteration; none of them fails. *)
Theorem empty_input_gives_empty_output :
  MidiTransform.reverse_notes [] = [] /\
  MidiTransform.intervallic_inversion [] = Some [] /\
  (forall axis, MidiTransform.invert_notes [] axis = Some []) /\
  (forall tpb draws,
     create_melody_with_random_durations [] tpb draws = Returned start /\
     returned_events (create_melody_with_random_durations [] tpb draws)
       = Some []).
Proof.
  repeat split; try done; destruct draws as [|[d m] draws]; done.
Qed.

End RhythmEngine.

(** ** Further properties of midi_transform.py *)

Section MoreTransformers.
Import MidiTransform Aux MoreAux.

(** X1: reversing twice gives the input back, and reversal keeps the
    notes themselves (it is a permutation of the input). *)
Theorem reverse_notes_round_trip (S : list note_data) :
  reverse_notes (reverse_notes S) = S /\ reverse_notes S ≡ₚ S.
Proof.
  unfold reverse_notes. split; [apply reverse_involutive|].
  apply reverse_Permutation.
Qed.

Lemma note_data_eta (n : note_data) :
  NoteData (note n) (velocity n) (time n) = n.
Proof. by destruct n. Qed.

Lemma clamp_midi_id (p : Z) : 0 <= p <= 127 -> Py.clamp_midi p = p.
Proof. unfold Py.clamp_midi. lia. Qed.

(** Inverting the inverted notes, with the roles of input and output
    exchanged, gives the input back when no step was clamped. *)
Lemma invert_from_twice rest pin pout :
  unclamped_from pin pout rest -> Forall midi_pitch rest ->
  invert_from pout pin (invert_from pin pout rest) = rest.
Proof.
  revert pin pout. induction rest as [|n rest IH]; intros pin pout Hun Hmidi;
    [done|].
  destruct Hun as [Hp Hun]. apply Forall_cons in Hmidi as [Hn Hmidi].
  cbn [invert_from note velocity time].
  rewrite !Z.add_opp_r, !(clamp_midi_id _ Hp).
  replace (pin - (pout - (note n - pin) - pout)) with (note n) by lia.
  rewrite (clamp_midi_id (note n)) by exact Hn.
  rewrite IH by done. by rewrite note_data_eta.
Qed.

Lemma no_clamping_unclamped_from hin hout rest :
  no_clamping (hin :: rest) (hout :: invert_from (note hin) (note hout) rest) ->
  unclamped_from (note hin) (note hout) rest.
Proof.
  revert hin hout. induction rest as [|n rest IH]; intros hin hout Hno; [done|].
  assert (Hp : 0 <= note hout - (note n - note hin) <= 127).
  { by apply (Hno 1%nat n hin hout). }
  split; [exact Hp|].
  set (o := NoteData (Py.clamp_midi (note hout + - (note n - note hin)))
              (velocity n) (time n)).
  assert (Ho : note o = note hout - (note n - note hin)).
  { unfold o. simpl. rewrite Z.add_opp_r. by apply clamp_midi_id. }
  rewrite <- Ho. apply IH.
  intros i cur prev last Hi Hc Hpv Hl.
  apply (Hno (S i) cur prev last); try lia.
  - exact Hc.
  - replace (S i - 1)%nat with (S (i - 1)) by lia. exact Hpv.
  - replace (S i - 1)%nat with (S (i - 1)) by lia. simpl. exact Hl.
Qed.

(** X2: on pitches in [0..127], when no step of the recurrence is
    clamped, the intervallic inversion of the output is the input. *)
Theorem intervallic_inversion_involutive (S out : list note_data) :
  Forall midi_pitch S ->
  intervallic_inversion S = Some out ->
  no_clamping S out ->
  intervallic_inversion out = Some S.
Proof.
  intros Hmidi Hout Hno. destruct S as [|first rest].
  - by injection Hout as <-.
  - rewrite intervallic_inversion_rec in Hout. injection Hout as <-.
    rewrite intervallic_inversion_rec. do 2 f_equal.
    apply Forall_cons in Hmidi as [_ Hmidi].
    apply invert_from_twice; [|done].
    by apply no_clamping_unclamped_from.
Qed.

Lemma intervallic_inversion_involutive_witness :
  intervallic_inversion [NoteData 60 80 0; NoteData 56 70 10; NoteData 58 90 20]
  = Some [NoteData 60 80 0; NoteData 64 70 10; NoteData 62 90 20].
Proof.
  apply (intervallic_inversion_involutive
           [NoteData 60 80 0; NoteData 64 70 10; NoteData 62 90 20]).
  - repeat constructor; unfold midi_pitch; simpl; lia.
  - reflexivity.
  - intros [|[|[|i]]] cur prev last Hi Hc Hp Hl; simpl in *;
      try lia; try discriminate;
      injection Hc as <-; injection Hp as <-; injection Hl as <-; simpl; lia.
Defined.

Lemma invert_from_fields pin pout rest :
  velocity <$> invert_from pin pout rest = velocity <$> rest /\
  time <$> invert_from pin pout rest = time <$> rest.
Proof.
  revert pin pout. induction rest as [|n rest IH]; intros; [done|].
  destruct (IH (note n) (Py.clamp_midi (pout + - (note n - pin))))
    as [Hv Ht].
  cbn [invert_from]. rewrite !fmap_cons, Hv, Ht. done.
Qed.

(** X3: both inversions change pitches only: the output has the length,
    the velocities and the times of the input, whatever the axis. *)
Theorem inversions_keep_velocity_and_time (S : list note_data) :
  (forall out, intervallic_inversion S = Some out ->
     length out = length S /\
     velocity <$> out = velocity <$> S /\ time <$> out = time <$> S) /\
  (forall axis out, invert_notes S axis = Some out ->
     length out = length S /\
     velocity <$> out = velocity <$> S /\ time <$> out = time <$> S).
Proof.
  split.
  - intros out H. destruct S as [|first rest]; [by injection H as <-|].
    rewrite intervallic_inversion_rec in H. injection H as <-.
    destruct (invert_from_fields (note first) (note first) rest) as [Hv Ht].
    rewrite !fmap_cons, Hv, Ht, !length_cons, invert_from_length. done.
  - intros axis out H. destruct S as [|first others]; [by injection H as <-|].
    unfold invert_notes in H.
    match type of H with (?a ≫= _) = _ => destruct a as [ax|]; [|done] end.
    simpl in H.
    apply invert_loop_shape in H as (tail & -> & _ & Hv & Ht).
    rewrite app_nil_l. split; [|done].
    rewrite <- (length_fmap velocity tail), Hv. by rewrite length_fmap.
Qed.

Lemma inversions_keep_velocity_and_time_witness :
  velocity <$> [NoteData 60 80 0; NoteData 56 70 10] = [80; 70] /\
  velocity <$> [NoteData 64 80 0; NoteData 60 70 10] = [80; 70].
Proof.
  destruct (inversions_keep_velocity_and_time
              [NoteData 60 80 0; NoteData 64 70 10]) as [Hi Ha].
  split.
  - by destruct (Hi [NoteData 60 80 0; NoteData 56 70 10] eq_refl) as (_ & -> & _).
  - by destruct (Ha None [NoteData 64 80 0; NoteData 60 70 10] eq_refl)
      as (_ & -> & _).
Defined.

(** The least and the greatest element are determined by their bounds. *)
Lemma min_of_unique first others m :
  m ∈ first :: others -> (forall p, p ∈ first :: others -> m <= p) ->
  min_of first others = m.
Proof.
  intros Hin Hle. destruct (min_of_spec first others) as [Hin' Hle'].
  apply Z.le_antisymm; [by apply Hle' | by apply Hle].
Qed.

Lemma max_of_unique first others m :
  m ∈ first :: others -> (forall p, p ∈ first :: others -> p <= m) ->
  max_of first others = m.
Proof.
  intros Hin Hle. destruct (max_of_spec first others) as [Hin' Hle'].
  apply Z.le_antisymm; [by apply Hle | by apply Hle'].
Qed.

(** X4: on pitches in [0..127] the inversion about the computed axis
    never clamps: it maps each pitch [p] to [lo + hi - p], which stays
    between the least pitch [lo] and the greatest pitch [hi], and
    applying it to its own output gives the input back. *)
Theorem default_axis_inversion_involutive (S : list note_data) :
  Forall midi_pitch S ->
  exists out,
    invert_notes S None = Some out /\
    invert_notes out None = Some S /\
    forall lo hi,
      lo ∈ note <$> S -> hi ∈ note <$> S ->
      (forall p, p ∈ note <$> S -> lo <= p <= hi) ->
      note <$> out = (fun n => lo + hi - note n) <$> S /\
      Forall (fun n => lo <= note n <= hi) out.
Proof.
  intros Hmidi. destruct S as [|first others].
  { exists []. repeat split; done. }
  pose proof (default_axis_integer_form first others
                (Forall_impl _ _ _ Hmidi midi_pitch_exact)) as Hout.
  cbv zeta in Hout.
  destruct (min_of_spec (note first) (note <$> others)) as [Hlo_in Hlo].
  destruct (max_of_spec (note first) (note <$> others)) as [Hhi_in Hhi].
  set (lo := min_of (note first) (note <$> others)) in *.
  set (hi := max_of (note first) (note <$> others)) in *.
  set (mirror := fun n => NoteData (lo + hi - note n) (velocity n) (time n)).
  assert (Hrange : forall n, n ∈ first :: others ->
                     0 <= note n <= 127 /\ lo <= note n <= hi).
  { intros n Hn. rewrite Forall_forall in Hmidi. split; [by apply Hmidi|].
    assert (note n ∈ note first :: (note <$> others))
      by (rewrite <- fmap_cons; by apply list_elem_of_fmap_2).
    split; [by apply Hlo | by apply Hhi]. }
  assert (Hlo_n : exists n, lo = note n /\ n ∈ first :: others)
    by (by apply (list_elem_of_fmap note (first :: others))).
  assert (Hhi_n : exists n, hi = note n /\ n ∈ first :: others)
    by (by apply (list_elem_of_fmap note (first :: others))).
  assert (Hlo_r : 0 <= lo <= 127).
  { destruct Hlo_n as (n & -> & Hn). by apply Hrange. }
  assert (Hhi_r : 0 <= hi <= 127).
  { destruct Hhi_n as (n & -> & Hn). by apply Hrange. }
  assert (Hmirror : (fun n => NoteData (Py.clamp_midi (lo + hi - note n))
                                (velocity n) (time n)) <$> first :: others
                    = mirror <$> first :: others).
  { apply list_fmap_ext. intros i n Hn.
    apply list_elem_of_lookup_2 in Hn. destruct (Hrange n Hn).
    unfold mirror. by rewrite clamp_midi_id by lia. }
  rewrite Hmirror in Hout.
  exists (mirror <$> first :: others). split; [exact Hout|].
  assert (Hpitches : note <$> (mirror <$> first :: others)
                     = (fun n => lo + hi - note n) <$> first :: others).
  { rewrite <- list_fmap_compose. by apply list_fmap_ext. }
  split.
  - (* the second application has the same bounds *)
    assert (Hmidi' : Forall midi_pitch (mirror <$> first :: others)).
    { apply Forall_fmap, Forall_forall. intros n Hn.
      destruct (Hrange n Hn). unfold midi_pitch, mirror. simpl. lia. }
    assert (Hmem : forall p, p ∈ note <$> (mirror <$> first :: others)
                     <-> exists n, p = lo + hi - note n /\ n ∈ first :: others).
    { intros p. rewrite Hpitches. apply list_elem_of_fmap. }
    pose proof (default_axis_integer_form (mirror first)
                  (fmap (M:=list) mirror others)
                  (Forall_impl _ _ _ Hmidi' midi_pitch_exact)) as Hback.
    cbv zeta in Hback.
    rewrite (min_of_unique _ _ lo), (max_of_unique _ _ hi) in Hback.
    + rewrite <- (fmap_cons mirror first others) in Hback.
      rewrite Hback, <- list_fmap_compose.
      f_equal. rewrite <- (list_fmap_id (first :: others)) at 2.
      apply list_fmap_ext. intros i n Hn.
      apply list_elem_of_lookup_2 in Hn. destruct (Hrange n Hn).
      unfold mirror. simpl.
      replace (lo + hi - (lo + hi - note n)) with (note n) by lia.
      rewrite clamp_midi_id by lia. apply note_data_eta.
    + apply (proj2 (Hmem hi)). destruct Hlo_n as (n & Hn & Hin).
      exists n. split; [lia|done].
    + intros p Hp. apply (proj1 (Hmem p)) in Hp as (n & -> & Hn).
      destruct (Hrange n Hn). lia.
    + apply (proj2 (Hmem lo)). destruct Hhi_n as (n & Hn & Hin).
      exists n. split; [lia|done].
    + intros p Hp. apply (proj1 (Hmem p)) in Hp as (n & -> & Hn).
      destruct (Hrange n Hn). lia.
  - intros lo' hi' Hlo'_in Hhi'_in Hb.
    assert (lo' = lo) as ->.
    { symmetry. apply min_of_unique; [done|]. intros p Hp. by apply Hb. }
    assert (hi' = hi) as ->.
    { symmetry. apply max_of_unique; [done|]. intros p Hp. by apply Hb. }
    split; [exact Hpitches|].
    apply Forall_fmap, Forall_forall. intros n Hn.
    destruct (Hrange n Hn). unfold mirror. simpl. lia.
Qed.

Lemma default_axis_inversion_involutive_witness :
  exists out,
    invert_notes [NoteData 60 80 0; NoteData 61 70 5; NoteData 67 90 9] None
      = Some out /\
    invert_notes out None
      = Some [NoteData 60 80 0; NoteData 61 70 5; NoteData 67 90 9].
Proof.
  destruct (default_axis_inversion_involutive
              [NoteData 60 80 0; NoteData 61 70 5; NoteData 67 90 9])
    as (out & H1 & H2 & _).
  - repeat constructor; unfold midi_pitch; simpl; lia.
  - by exists out.
Defined.

(** With an integer axis no float takes part: the result is
    [clamp(2 * axis - p)] for every input. *)
Lemma invert_loop_int (a : Z) notes acc :
  Py.for_each (invert_body (Py.Int a)) notes acc
  = Some (acc ++ ((fun n => NoteData (Py.clamp_midi (2 * a - note n))
                              (velocity n) (time n)) <$> notes)).
Proof.
  unfold Py.for_each. revert acc.
  induction notes as [|n notes IH]; intros acc.
  - simpl. by rewrite app_nil_r.
  - cbn [foldl mbind option_bind].
    change (invert_body (Py.Int a) acc n)
      with (Some (acc ++ [NoteData (Py.clamp_midi (2 * a - note n))
                            (velocity n) (time n)])).
    rewrite IH, fmap_cons. by rewrite <- app_assoc.
Qed.

Lemma invert_notes_int_axis (a : Z) (S : list note_data) :
  invert_notes S (Some (Py.Int a))
  = Some ((fun n => NoteData (Py.clamp_midi (2 * a - note n))
                      (velocity n) (time n)) <$> S).
Proof.
  destruct S as [|first others]; [done|].
  unfold invert_notes. cbn [mbind option_bind]. by rewrite invert_loop_int.
Qed.

(** X5: with a given integer axis [a], when all pitches [p] and their
    mirror images [2 * a - p] lie in [0..127], inverting twice about [a]
    gives the input back. *)
Theorem integer_axis_inversion_involutive (a : Z) (S : list note_data) :
  Forall (fun n => 0 <= note n <= 127 /\ 0 <= 2 * a - note n <= 127) S ->
  exists out,
    invert_notes S (Some (Py.Int a)) = Some out /\
    invert_notes out (Some (Py.Int a)) = Some S.
Proof.
  intros Hr. eexists. split; [apply invert_notes_int_axis|].
  rewrite invert_notes_int_axis, <- list_fmap_compose. f_equal.
  rewrite <- (list_fmap_id S) at 2. apply list_fmap_ext. intros i n Hn.
  apply list_elem_of_lookup_2 in Hn. rewrite Forall_forall in Hr.
  destruct (Hr n Hn) as [Hp Hm]. simpl.
  rewrite (clamp_midi_id (2 * a - note n)) by lia.
  replace (2 * a - (2 * a - note n)) with (note n) by lia.
  rewrite clamp_midi_id by lia. apply note_data_eta.
Qed.

Lemma integer_axis_inversion_involutive_witness :
  exists out,
    invert_notes [NoteData 60 80 0; NoteData 70 70 5] (Some (Py.Int 62)) = Some out /\
    invert_notes out (Some (Py.Int 62)) = Some [NoteData 60 80 0; NoteData 70 70 5].
Proof.
  apply (integer_axis_inversion_involutive 62 [NoteData 60 80 0; NoteData 70 70 5]).
  repeat constructor; simpl; lia.
Defined.

(** Clamping breaks the involution: 10 mirrored about 70 is 130, clamped
    to 127, which mirrors back to 13. *)
Example clamped_inversion_not_involutive :
  invert_notes [NoteData 10 80 0] (Some (Py.Int 70)) = Some [NoteData 127 80 0] /\
  invert_notes [NoteData 127 80 0] (Some (Py.Int 70)) = Some [NoteData 13 80 0].
Proof. split; reflexivity. Qed.

End MoreTransformers.

(** ** Properties of the functions that read and build tracks *)

Section Tracks.
Import Mido MidiTransform MidiFiles Aux MoreAux.

Lemma data_byte_spec x : data_byte x = true <-> 0 <= x <= 127.
Proof. unfold data_byte. rewrite andb_true_iff, !Z.leb_le. tauto. Qed.

Lemma note_on_Some n v t m :
  note_on 0 n v t = Some m <->
  m = NoteOn 0 n v t /\ 0 <= n <= 127 /\ 0 <= v <= 127.
Proof.
  unfold note_on. change (channel_ok 0) with true. cbn [andb].
  pose proof (data_byte_spec n) as Hn. pose proof (data_byte_spec v) as Hv.
  destruct (data_byte n), (data_byte v); cbn [andb]; split;
    first [ intros [= <-]; tauto
          | intros (-> & ? & ?); first [done | exfalso; intuition discriminate]
          | intros [=] ].
Qed.

Lemma note_off_Some n t m :
  note_off 0 n 0 t = Some m <-> m = NoteOff 0 n 0 t /\ 0 <= n <= 127.
Proof.
  unfold note_off. change (channel_ok 0) with true.
  change (data_byte 0) with true. cbn [andb]. rewrite ?andb_true_r.
  pose proof (data_byte_spec n) as Hn.
  destruct (data_byte n); split;
    first [ intros [= <-]; tauto
          | intros (-> & ?); first [done | exfalso; intuition discriminate]
          | intros [=] ].
Qed.

(** The inner loop returns early exactly when the twelfth note is found. *)
Lemma scan_track_spec track notes :
  (length notes < 12)%nat ->
  match scan_track track notes with
  | inl r => r = take 12 (notes ++ omap note_on_data track) /\ length r = 12%nat
  | inr r => r = notes ++ omap note_on_data track /\ (length r < 12)%nat
  end.
Proof.
  revert notes. induction track as [|msg track IH]; intros notes Hlen.
  - simpl. by rewrite app_nil_r.
  - destruct msg as [c n v t| | | |]; cbn [scan_track omap list_omap note_on_data];
      try by apply IH.
    destruct (0 <? v); [|by apply IH].
    cbn [omap list_omap].
    replace (notes ++ NoteData n v t :: omap note_on_data track)
      with ((notes ++ [NoteData n v t]) ++ omap note_on_data track)
      by (by rewrite <- app_assoc).
    destruct (Nat.eqb_spec (length (notes ++ [NoteData n v t])) 12) as [H12|H12].
    + split; [|done]. symmetry. by apply take_app_length'.
    + apply IH. rewrite length_app in *. simpl in *. lia.
Qed.

Lemma scan_tracks_spec tracks notes :
  (length notes < 12)%nat ->
  scan_tracks tracks notes
  = take 12 (notes ++ omap note_on_data (concat tracks)).
Proof.
  revert notes. induction tracks as [|track tracks IH]; intros notes Hlen.
  - simpl. rewrite app_nil_r. symmetry. apply take_ge. lia.
  - cbn [scan_tracks concat]. rewrite omap_app, app_assoc.
    pose proof (scan_track_spec track notes Hlen) as H.
    destruct (scan_track track notes) as [r|r]; destruct H as [Hr Hl].
    + assert (12 <= length (notes ++ omap note_on_data track))%nat
        by (rewrite Hr, length_take in Hl; lia).
      by rewrite take_app_le.
    + rewrite IH by done. by rewrite Hr.
Qed.

Lemma extract_first_12_notes_take (tracks : list (list message)) :
  extract_first_12_notes tracks = take 12 (omap note_on_data (concat tracks)).
Proof.
  unfold extract_first_12_notes.
  rewrite scan_tracks_spec by (simpl; lia). by rewrite app_nil_l.
Qed.

(** X6: [extract_first_12_notes] returns the first twelve messages of
    type [note_on] with a positive velocity, counted across the tracks in
    file order, or all of them when there are fewer; it never returns
    more than twelve notes. *)
Theorem extract_first_12_notes_spec (tracks : list (list message)) :
  extract_first_12_notes tracks = take 12 (omap note_on_data (concat tracks)) /\
  (length (extract_first_12_notes tracks) <= 12)%nat.
Proof.
  rewrite extract_first_12_notes_take.
  split; [done|]. rewrite length_take. lia.
Qed.











(** A note written with velocity 0 is not read back. *)
Example silent_note_is_not_read_back :
  (track ← create_midi_file [NoteData 60 0 5; NoteData 62 70 7] 500000;
   Some (extract_first_12_notes [track]))
  = Some [NoteData 62 70 0].
Proof. reflexivity. Qed.




End Tracks.

(** ** Further properties of create_melody.py *)

Section MoreRhythm.
Import Mido CreateMelody MelodyAux MelodyFiles MelodyMore.

Lemma extract_all_inner track notes :
  foldl (fun notes msg =>
           match msg with
           | NoteOn _ n v _ => if 0 <? v then notes ++ [NoteData n v] else notes
           | _ => notes
           end) notes track
  = notes ++ omap all_note_data track.
Proof.
  revert notes. induction track as [|msg track IH]; intros notes.
  - simpl. by rewrite app_nil_r.
  - cbn [foldl]. rewrite IH.
    destruct msg as [c n v t| | | |]; cbn [omap list_omap all_note_data]; try done.
    destruct (0 <? v); [|done]. by rewrite <- app_assoc.
Qed.

Lemma extract_all_outer tracks notes :
  foldl (fun notes track =>
           foldl (fun notes msg =>
                    match msg with
                    | NoteOn _ n v _ =>
                        if 0 <? v then notes ++ [NoteData n v] else notes
                    | _ => notes
                    end) notes track) notes tracks
  = notes ++ omap all_note_data (concat tracks).
Proof.
  revert notes. induction tracks as [|track tracks IH]; intros notes.
  - simpl. by rewrite app_nil_r.
  - cbn [foldl concat]. rewrite IH, extract_all_inner, omap_app.
    by rewrite <- app_assoc.
Qed.

(** X10: [extract_all_notes] returns every message of type [note_on]
    with a positive velocity, across the tracks in file order, and
    [extract_first_12_notes] of [midi_transform.py] returns, time apart,
    the first twelve of these notes. *)
Theorem extract_all_notes_spec (tracks : list (list message)) :
  extract_all_notes tracks = omap all_note_data (concat tracks) /\
  forget_time <$> MidiFiles.extract_first_12_notes tracks
  = take 12 (extract_all_notes tracks).
Proof.
  assert (Hall : extract_all_notes tracks = omap all_note_data (concat tracks)).
  { unfold extract_all_notes. by rewrite extract_all_outer. }
  split; [exact Hall|].
  rewrite Hall, (extract_first_12_notes_take tracks), fmap_take.
  f_equal. clear Hall. induction (concat tracks) as [|msg l IH]; [done|].
  destruct msg as [c n v t| | | |];
    cbn [omap list_omap all_note_data MoreAux.note_on_data]; try done.
  destruct (0 <? v); [|exact IH]. rewrite fmap_cons. by f_equal.
Qed.

Lemma note_data_eta' (n : note_data) : NoteData (note n) (velocity n) = n.
Proof. by destruct n. Qed.

Lemma emitted_notes_snoc events e :
  emitted_notes (events ++ [e])
  = emitted_notes events ++
      match e with NoteEvent n v _ => [NoteData n v] | RestEvent _ => [] end.
Proof.
  unfold emitted_notes. rewrite omap_app. by destruct e.
Qed.

(** Every iteration keeps the local variables consistent with the input. *)
Lemma loop_body_consistent notes tpb st d m st' :
  consistent notes st ->
  loop_body notes tpb st d m = Some st' ->
  consistent notes st'.
Proof.
  intros (Hidx & Hev & Hem & Hheld) H.
  destruct (loop_body_spec _ _ _ _ _ _ H) as (cur & base & _ & Hsel & Hcase).
  unfold consistent, played in *.
  destruct (held_note st) as [held|] eqn:Hh.
  - destruct Hsel as [-> Hidx']. destruct (Hheld held eq_refl) as [Hpos Hlook].
    destruct Hcase as [(_ & Hh' & Hev')|[(_ & Hh' & Hev')|(_ & _ & Hh' & Hev')]];
      rewrite Hh', Hev', Hidx', emitted_notes_snoc, length_app, Hem;
      (split; [lia|]); (split; [simpl; lia|]).
    + split; [|done]. rewrite note_data_eta'.
      replace (note_index st) with (S (note_index st - 1)) at 2 by lia.
      symmetry. by apply take_S_r.
    + split; [|done]. rewrite note_data_eta'.
      replace (note_index st) with (S (note_index st - 1)) at 2 by lia.
      symmetry. by apply take_S_r.
    + split; [by rewrite app_nil_r|]. by intros ? [= <-].
  - destruct Hsel as [Hlook Hidx'].
    pose proof (lookup_lt_Some _ _ _ Hlook) as Hlt.
    destruct Hcase as [(_ & Hh' & Hev')|[(_ & Hh' & Hev')|(_ & _ & Hh' & Hev')]];
      rewrite Hh', Hev', Hidx', emitted_notes_snoc, length_app, Hem;
      (split; [lia|]); (split; [simpl; lia|]).
    + split; [|done]. rewrite note_data_eta'. symmetry. by apply take_S_r.
    + split; [|done]. rewrite note_data_eta'. symmetry. by apply take_S_r.
    + replace (S (note_index st) - 1)%nat with (note_index st) by lia.
      split; [by rewrite app_nil_r|]. intros ? [= <-]. split; [lia|done].
Qed.

Lemma start_consistent notes : consistent notes start.
Proof.
  unfold consistent, played. simpl.
  split; [lia|]. split; [lia|]. split; [done|]. by intros ? [=].
Qed.

Lemma while_loop_consistent notes tpb draws st st' :
  consistent notes st ->
  while_loop notes tpb draws st = Returned st' ->
  consistent notes st' /\ note_index st' = length notes.
Proof.
  revert st. induction draws as [|[d m] draws IH]; intros st Hc; simpl.
  - destruct (running notes st) eqn:Hrun; [done|]. intros [= <-].
    split; [done|]. unfold running in Hrun.
    apply bool_decide_eq_false in Hrun. destruct Hc as (? & _). lia.
  - destruct (running notes st) eqn:Hrun.
    + destruct (loop_body notes tpb st d m) as [st1|] eqn:Hbody; [|done].
      apply IH. by eapply loop_body_consistent.
    + intros [= <-]. split; [done|]. unfold running in Hrun.
      apply bool_decide_eq_false in Hrun. destruct Hc as (? & _). lia.
Qed.

(** X11: the notes of the returned events are the input notes, each once
    and in the input order, with their pitch and velocity; only the last
    input note is missing when the run ends while it is held. *)
Theorem returned_notes_follow_input notes tpb draws st :
  create_melody_with_random_durations notes tpb draws = Returned st ->
  match held_note st with
  | None => emitted_notes (melody_events st) = notes
  | Some held => notes = emitted_notes (melody_events st) ++ [held]
  end.
Proof.
  intros H. unfold create_melody_with_random_durations in H.
  apply while_loop_consistent in H as [(Hidx & _ & Hem & Hheld) Hlen];
    [|apply start_consistent].
  unfold played in Hem. destruct (held_note st) as [held|].
  - destruct (Hheld held eq_refl) as [Hpos Hlook].
    rewrite Hem, <- (take_S_r _ _ _ Hlook).
    replace (S (note_index st - 1)) with (length notes) by lia.
    by rewrite firstn_all.
  - by rewrite Hem, Hlen, firstn_all.
Qed.

Lemma returned_notes_follow_input_witness :
  emitted_notes [RestEvent 480; NoteEvent 60 80 720; NoteEvent 62 70 2880]
  = [NoteData 60 80; NoteData 62 70].
Proof.
  apply (returned_notes_follow_input
           [NoteData 60 80; NoteData 62 70] 480 [(4, 3); (4, 2); (6, 2)]
           (Engine [RestEvent 480; NoteEvent 60 80 720; NoteEvent 62 70 2880]
              2 None)).
  reflexivity.
Defined.

Lemma while_loop_event_count notes tpb draws st st' :
  while_loop notes tpb draws st = Returned st' ->
  (length (melody_events st') <= length (melody_events st) + length draws)%nat.
Proof.
  revert st. induction draws as [|[d m] draws IH]; intros st; simpl.
  - destruct (running notes st); [done|]. intros [= <-]. lia.
  - destruct (running notes st); [|intros [= <-]; lia].
    destruct (loop_body notes tpb st d m) as [st1|] eqn:Hbody; [|done].
    intros H. apply IH in H.
    destruct (loop_body_spec _ _ _ _ _ _ Hbody) as (cur & base & _ & _ & Hcase).
    assert (length (melody_events st1) = S (length (melody_events st))).
    { destruct Hcase as [(_ & _ & ->)|[(_ & _ & ->)|(_ & _ & _ & ->)]];
        rewrite length_app; simpl; lia. }
    lia.
Qed.

(** X12: a run that returns has emitted at least one event per input note
    and at most one event per pair of draws. *)
Theorem returned_event_count notes tpb draws evs :
  returned_events (create_melody_with_random_durations notes tpb draws) = Some evs ->
  (length notes <= length evs <= length draws)%nat.
Proof.
  unfold create_melody_with_random_durations.
  destruct (while_loop notes tpb draws start) as [st| |st] eqn:H; [|done..].
  intros [= <-].
  pose proof (while_loop_event_count _ _ _ _ _ H) as Hmax.
  apply while_loop_consistent in H as [(_ & Hev & _) Hlen];
    [|apply start_consistent].
  simpl in Hmax. lia.
Qed.

Lemma returned_event_count_witness :
  (length [NoteData 60 80; NoteData 62 70]
   <= length [RestEvent 480; NoteEvent 60 80 720; NoteEvent 62 70 2880]
   <= length [(4, 3); (4, 2); (6, 2)])%nat.
Proof.
  apply (returned_event_count
           [NoteData 60 80; NoteData 62 70] 480 [(4, 3); (4, 2); (6, 2)]
           [RestEvent 480; NoteEvent 60 80 720; NoteEvent 62 70 2880]).
  reflexivity.
Defined.

(** [int(base * 1.5)] is defined for every base duration of moderate
    size. *)
Lemma dotted_defined base :
  Z.abs base <= 2 ^ 50 ->
  is_Some (Py.mul (Py.Int base) (Py.Float (3 # 2))).
Proof.
  intros Hb. unfold Py.mul, Py.float_op, Py.as_float.
  rewrite (to_float_inject_Z (inject_Z base) base) by (done || lia).
  cbn [mbind option_bind].
  destruct (to_float_half (inject_Z base * (3 # 2)) (3 * base))
    as (r & -> & _); [|lia|by eexists].
  unfold Qeq. simpl. lia.
Qed.

Lemma loop_body_never_raises notes tpb st d m :
  Z.abs tpb <= 2 ^ 48 ->
  running notes st = true -> 1 <= d <= 6 ->
  is_Some (loop_body notes tpb st d m).
Proof.
  intros Htpb Hrun Hd. unfold running in Hrun. apply bool_decide_eq_true in Hrun.
  destruct (lookup_lt_is_Some_2 notes (note_index st) Hrun) as [n Hn].
  destruct (duration_map_valid tpb d Hd) as [base Hbase].
  assert (Hb : Z.abs base <= 2 ^ 50).
  { apply duration_map_lookup in Hbase.
    destruct Hbase as [[_ ->]|[[_ ->]|[[_ ->]|[[_ ->]|[[_ ->]|[_ ->]]]]]];
      Z.div_mod_to_equations; lia. }
  destruct (dotted_defined base Hb) as [x Hx].
  unfold loop_body. rewrite Hn, Hbase.
  destruct (held_note st); cbn [mbind option_bind];
    (destruct (m =? 1); [by eexists|]);
    (destruct (m =? 2); [|by eexists]);
    rewrite Hx; by eexists.
Qed.

(** X13: with draws that [randint(1, 6)] and [randint(1, 3)] can return
    and a tick resolution of at most [2^48], no iteration raises: the
    duration is found in [duration_map], the index is within the input,
    and the dotted duration is computed exactly. *)
Theorem run_never_raises notes tpb draws :
  Z.abs tpb <= 2 ^ 48 -> Forall valid_draw draws ->
  create_melody_with_random_durations notes tpb draws <> Failed.
Proof.
  intros Htpb. unfold create_melody_with_random_durations.
  generalize start. induction draws as [|[d m] draws IH]; intros st Hvalid; simpl.
  - by destruct (running notes st).
  - destruct (running notes st) eqn:Hrun; [|done].
    apply Forall_cons in Hvalid as [[Hd _] Hvalid]. simpl in Hd.
    destruct (loop_body_never_raises notes tpb st d m Htpb Hrun Hd) as [st' ->].
    by apply IH.
Qed.

Lemma run_never_raises_witness :
  create_melody_with_random_durations
    [NoteData 60 80; NoteData 62 70] 96 [(1, 3); (6, 2)] <> Failed.
Proof.
  apply run_never_raises.
  - simpl. lia.
  - repeat constructor; simpl; lia.
Defined.

(** A duration choice outside [1..6] is a [KeyError]. *)
Example bad_duration_choice_raises :
  create_melody_with_random_durations [NoteData 60 80] 480 [(7, 1)] = Failed.
Proof. reflexivity. Qed.




End MoreRhythm.

(** ** Properties of the naming tables and of the track of a melody *)

Section Exports.
Import Mido CreateMelody MelodyAux MelodyFiles MelodyMore.

(** X15: at 480 ticks per beat every duration that
    [create_melody_with_random_durations] returns has an entry in both
    naming tables, so [get_duration_name] and
    [get_duration_name_spanish] return a note value and never the raw
    tick count. *)
Theorem returned_durations_have_names notes draws evs e :
  returned_events (create_melody_with_random_durations notes 480 draws) = Some evs ->
  e ∈ evs ->
  exists name spanish,
    duration_names !! duration e = Some name /\
    get_duration_name (duration e) 480 = name /\
    duration_names_spanish !! duration e = Some spanish /\
    get_duration_name_spanish (duration e) 480 = spanish.
Proof.
  intros H He. apply returned_well_formed in H.
  rewrite Forall_forall in H. apply H, well_formed_480 in He.
  unfold canonical_durations, get_duration_name, get_duration_name_spanish in *.
  repeat (apply elem_of_cons in He as [->|He];
          [do 2 eexists; repeat split; vm_compute; reflexivity|]).
  by apply elem_of_nil in He.
Qed.

Lemma returned_durations_have_names_witness :
  exists name spanish,
    duration_names !! 2880 = Some name /\
    get_duration_name 2880 480 = name /\
    duration_names_spanish !! 2880 = Some spanish /\
    get_duration_name_spanish 2880 480 = spanish.
Proof.
  apply (returned_durations_have_names
           [NoteData 60 80; NoteData 62 70] [(1, 3); (6, 2); (3, 1)]
           [RestEvent 60; NoteEvent 60 80 2880; NoteEvent 62 70 240]
           (NoteEvent 60 80 2880)).
  - reflexivity.
  - right; left.
Defined.

(** A duration outside the tables, such as the dotted whole note at 960
    ticks per beat, is shown as its tick count. *)
Example unnamed_duration_falls_back :
  create_melody_with_random_durations [NoteData 60 80] 960 [(6, 2)]
    = Returned (Engine [NoteEvent 60 80 5760] 1 None) /\
  get_duration_name 5760 960 = "5760 ticks" /\
  get_duration_name_spanish 5760 960 = "5760 ticks".
Proof. repeat split; vm_compute; reflexivity. Qed.

Lemma write_event_spec w e w' :
  write_event w e = Some w' ->
  sum_Z (time_of <$> track w') - current_measure_ticks w'
    = sum_Z (time_of <$> track w) - current_measure_ticks w /\
  current_measure_ticks w' + accumulated_time w'
    = current_measure_ticks w + accumulated_time w + duration e /\
  length (track w') = (length (track w) + 2 * length (emitted_notes [e]))%nat.
Proof.
  destruct e as [n v d|d]; cbn [write_event].
  - destruct (note_on 0 n v (accumulated_time w)) as [on|] eqn:Hon; [|done].
    cbn [mbind option_bind].
    destruct (note_off 0 n 0 d) as [off|] eqn:Hoff; [|done].
    intros [= <-]. apply note_on_Some in Hon as (-> & _).
    apply note_off_Some in Hoff as (-> & _).
    cbn [track current_measure_ticks accumulated_time duration].
    rewrite fmap_app, length_app. unfold sum_Z. rewrite foldr_app. simpl.
    assert (Hshift : forall (l : list Z) a, foldr Z.add a l = foldr Z.add 0 l + a).
    { induction l as [|x l IH]; intros a; simpl; [lia|]. rewrite IH. lia. }
    rewrite Hshift. repeat split; lia.
  - intros [= <-]. simpl. repeat split; lia.
Qed.

Lemma write_loop_spec evs w w' :
  Py.for_each write_event evs w = Some w' ->
  sum_Z (time_of <$> track w') - current_measure_ticks w'
    = sum_Z (time_of <$> track w) - current_measure_ticks w /\
  current_measure_ticks w' + accumulated_time w'
    = current_measure_ticks w + accumulated_time w + sum_Z (duration <$> evs) /\
  length (track w') = (length (track w) + 2 * length (emitted_notes evs))%nat.
Proof.
  unfold Py.for_each. revert w.
  induction evs as [|e evs IH]; intros w H.
  - injection H as <-. simpl. repeat split; lia.
  - cbn [foldl mbind option_bind] in H.
    destruct (write_event w e) as [w1|] eqn:He;
      [|by rewrite for_each_failed in H].
    destruct (write_event_spec _ _ _ He) as (H1 & H2 & H3).
    destruct (IH _ H) as (H4 & H5 & H6).
    assert (emitted_notes (e :: evs) = emitted_notes [e] ++ emitted_notes evs)
      as -> by (by destruct e).
    rewrite fmap_cons, length_app. unfold sum_Z in *. simpl foldr.
    repeat split; lia.
Qed.

(** X16: in the track that [create_midi_from_melody] builds, the times of
    all messages add up to the total [current_measure_ticks] that the
    function reports; this total and the rests still pending at the end
    add up to the durations of all events; and the track holds the six
    fixed messages and two messages per note. *)
Theorem melody_track_accounts_for_time evs tempo w :
  create_midi_from_melody evs tempo = Some w ->
  sum_Z (time_of <$> track w) = current_measure_ticks w /\
  current_measure_ticks w + accumulated_time w = sum_Z (duration <$> evs) /\
  length (track w) = (6 + 2 * length (emitted_notes evs))%nat.
Proof.
  unfold create_midi_from_melody.
  destruct (Py.for_each write_event evs _) as [w1|] eqn:H; [|done].
  intros [= <-]. apply write_loop_spec in H as (H1 & H2 & H3).
  cbn [track accumulated_time current_measure_ticks] in *.
  rewrite fmap_app, length_app. unfold sum_Z in *. rewrite foldr_app.
  simpl in *. change (0 + 0) with 0. repeat split; lia.
Qed.

Lemma melody_track_accounts_for_time_witness :
  match create_midi_from_melody
          [RestEvent 60; NoteEvent 60 80 2880; RestEvent 240] 500000 with
  | Some w =>
      sum_Z (time_of <$> track w) = current_measure_ticks w /\
      current_measure_ticks w + accumulated_time w = 60 + 2880 + 240 /\
      length (track w) = 8%nat
  | None => False
  end.
Proof.
  destruct (create_midi_from_melody
              [RestEvent 60; NoteEvent 60 80 2880; RestEvent 240] 500000)
    as [w|] eqn:H.
  - exact (melody_track_accounts_for_time _ _ _ H).
  - vm_compute in H. discriminate H.
Defined.

(** X17: rests at the end of the melody leave no trace in the track:
    appending a rest to the events changes only the pending time. *)
Theorem trailing_rest_is_not_written evs d tempo :
  track <$> create_midi_from_melody (evs ++ [RestEvent d]) tempo
  = track <$> create_midi_from_melody evs tempo.
Proof.
  unfold create_midi_from_melody, Py.for_each. rewrite foldl_app.
  cbn [foldl].
  destruct (foldl _ _ evs) as [w|]; [|done].
  reflexivity.
Qed.

End Exports.

(** ** Properties of create_chromatic_midi.py and of the note names *)

Section Names.
Import Mido MelodyFiles.

Lemma chromatic_loop_valid notes track :
  Forall (fun n => 0 <= n <= 127) notes ->
  Py.for_each Chromatic.chromatic_body notes track
  = Some (track ++ concat ((fun n => [NoteOn 0 n 80 0; NoteOff 0 n 0 480])
                           <$> notes)).
Proof.
  unfold Py.for_each. revert track.
  induction notes as [|n notes IH]; intros track Hvalid.
  - simpl. by rewrite app_nil_r.
  - apply Forall_cons in Hvalid as [Hn Hvalid].
    assert (H80 : 0 <= 80 <= 127) by lia.
    cbn [foldl mbind option_bind]. unfold Chromatic.chromatic_body at 2.
    rewrite (proj2 (note_on_Some n 80 0 _)
               (conj eq_refl (conj Hn H80))).
    cbn [mbind option_bind].
    rewrite (proj2 (note_off_Some n 480 _) (conj eq_refl Hn)).
    cbn [mbind option_bind]. rewrite IH by done.
    rewrite fmap_cons. cbn [concat]. by rewrite <- app_assoc.
Qed.

Lemma chromatic_read_back notes :
  omap MoreAux.note_on_data
    (concat ((fun n => [NoteOn 0 n 80 0; NoteOff 0 n 0 480]) <$> notes))
  = (fun n => MidiTransform.NoteData n 80 0) <$> notes.
Proof.
  induction notes as [|n notes IH]; [done|].
  rewrite !fmap_cons. cbn [concat]. rewrite omap_app, IH. done.
Qed.

(** X18: whatever order the shuffle leaves the twelve pitches 24..35 in,
    [create_chromatic_midi] finds a name for each of them and builds a
    track of 25 messages, from which [extract_first_12_notes] reads the
    twelve pitches back in that order, each once, with velocity 80 and
    time 0. *)
Theorem chromatic_file_round_trip (chromatic_notes : list Z) :
  chromatic_notes ≡ₚ Chromatic.chromatic_range ->
  exists track,
    Chromatic.create_chromatic_midi chromatic_notes = Some track /\
    length track = 25%nat /\
    MidiFiles.extract_first_12_notes [track]
      = (fun n => MidiTransform.NoteData n 80 0) <$> chromatic_notes /\
    NoDup chromatic_notes.
Proof.
  intros Hperm.
  assert (Hrange : Forall (fun n => 24 <= n <= 35) chromatic_notes).
  { rewrite Hperm. unfold Chromatic.chromatic_range.
    apply Forall_forall. intros n Hn. apply elem_of_seqZ in Hn. lia. }
  assert (Hlen : length chromatic_notes = 12%nat).
  { rewrite Hperm. unfold Chromatic.chromatic_range. by rewrite length_seqZ. }
  assert (Hnames : is_Some (mapM (fun note => PyList.index Chromatic.note_names
                                                 (note - 24)) chromatic_notes)).
  { apply mapM_is_Some. eapply Forall_impl; [exact Hrange|].
    intros n Hn. unfold PyList.index, compose. cbv beta in *.
    rewrite (proj2 (Z.leb_le 0 (n - 24))) by lia.
    apply lookup_lt_is_Some_2. simpl. lia. }
  destruct Hnames as [names Hnames].
  unfold Chromatic.create_chromatic_midi. rewrite Hnames.
  cbn [mbind option_bind].
  rewrite chromatic_loop_valid
    by (eapply Forall_impl; [exact Hrange|]; simpl; intros; lia).
  eexists. split; [done|]. split; [|split].
  - cbn [app length]. f_equal.
    clear -Hlen. 
    assert (forall l : list Z,
              length (concat ((fun n => [NoteOn 0 n 80 0; NoteOff 0 n 0 480])
                              <$> l)) = (2 * length l)%nat) as ->.
    { induction l as [|x l IH]; [done|]. rewrite fmap_cons. cbn [concat].
      rewrite length_app, IH. simpl. lia. }
    lia.
  - rewrite (extract_first_12_notes_take _).
    cbn [concat]. rewrite app_nil_r.
    cbn [app omap list_omap MoreAux.note_on_data].
    rewrite chromatic_read_back. apply take_ge.
    rewrite length_fmap. lia.
  - rewrite Hperm. apply NoDup_seqZ.
Qed.

Lemma chromatic_file_round_trip_witness :
  exists track,
    Chromatic.create_chromatic_midi [35; 24; 26; 25; 28; 27; 30; 29; 32; 31; 34; 33]
      = Some track /\
    length track = 25%nat /\
    MidiFiles.extract_first_12_notes [track]
      = (fun n => MidiTransform.NoteData n 80 0)
          <$> [35; 24; 26; 25; 28; 27; 30; 29; 32; 31; 34; 33] /\
    NoDup [35; 24; 26; 25; 28; 27; 30; 29; 32; 31; 34; 33].
Proof.
  apply (chromatic_file_round_trip [35; 24; 26; 25; 28; 27; 30; 29; 32; 31; 34; 33]).
  apply NoDup_Permutation.
  - repeat (apply NoDup_cons_2; [not_in_list|]). apply NoDup_nil_2.
  - unfold Chromatic.chromatic_range. apply NoDup_seqZ.
  - intros x. unfold Chromatic.chromatic_range. rewrite elem_of_seqZ.
    split.
    + intros H. repeat (apply elem_of_cons in H as [->|H]; [lia|]).
      by apply elem_of_nil in H.
    + intros H.
      assert (x = 24 \/ x = 25 \/ x = 26 \/ x = 27 \/ x = 28 \/ x = 29 \/
              x = 30 \/ x = 31 \/ x = 32 \/ x = 33 \/ x = 34 \/ x = 35)
        as [->|[->|[->|[->|[->|[->|[->|[->|[->|[->|[->| ->]]]]]]]]]]] by lia;
        in_list.
Defined.

(** The decimal form of a number never starts with the sharp sign. *)
Lemma pretty_N_go_no_sharp (x : N) (text : string) :
  ~ NameAux.starts_with_sharp text ->
  ~ NameAux.starts_with_sharp (pretty_N_go x text).
Proof.
  revert text. induction (N.lt_wf_0 x) as [x _ IH]. intros text Htext.
  destruct (N.eq_dec x 0%N) as [->|Hx]; [by rewrite pretty_N_go_0|].
  rewrite pretty_N_go_step by lia. apply IH.
  - apply N.div_lt; lia.
  - cbn [NameAux.starts_with_sharp]. unfold pretty_N_char.
    repeat case_match; discriminate.
Qed.

Lemma pretty_Z_no_sharp (z : Z) : ~ NameAux.starts_with_sharp (pretty z).
Proof.
  destruct z as [|q|q]; unfold pretty, pretty_Z.
  - simpl. discriminate.
  - unfold pretty, pretty_positive, pretty, pretty_N.
    case_decide; [simpl; discriminate|].
    apply pretty_N_go_no_sharp. simpl. tauto.
  - simpl. discriminate.
Qed.

Lemma note_name_of_residue (r : Z) :
  0 <= r < 12 ->
  exists name, PyList.index note_names r = Some name /\
    (name = "C" \/ name = "C#" \/ name = "D" \/ name = "D#" \/ name = "E" \/
     name = "F" \/ name = "F#" \/ name = "G" \/ name = "G#" \/ name = "A" \/
     name = "A#" \/ name = "B")%string.
Proof.
  intros Hr.
  assert (r = 0 \/ r = 1 \/ r = 2 \/ r = 3 \/ r = 4 \/ r = 5 \/ r = 6 \/
          r = 7 \/ r = 8 \/ r = 9 \/ r = 10 \/ r = 11)
    as [->|[->|[->|[->|[->|[->|[->|[->|[->|[->|[->| ->]]]]]]]]]]] by lia;
    eexists; (split; [reflexivity|]); tauto.
Qed.

(** Two names followed by texts without a leading sharp are equal only
    for the same residue and the same texts. *)
Lemma note_names_unambiguous (ra rb : Z) na nb ta tb :
  0 <= ra < 12 -> 0 <= rb < 12 ->
  PyList.index note_names ra = Some na ->
  PyList.index note_names rb = Some nb ->
  ~ NameAux.starts_with_sharp ta -> ~ NameAux.starts_with_sharp tb ->
  na +:+ ta = nb +:+ tb ->
  ra = rb /\ ta = tb.
Proof.
  intros Hra Hrb Hna Hnb Hta Htb Heq.
  assert (ra = 0 \/ ra = 1 \/ ra = 2 \/ ra = 3 \/ ra = 4 \/ ra = 5 \/ ra = 6 \/
          ra = 7 \/ ra = 8 \/ ra = 9 \/ ra = 10 \/ ra = 11)
    as [->|[->|[->|[->|[->|[->|[->|[->|[->|[->|[->| ->]]]]]]]]]]] by lia;
    vm_compute in Hna; injection Hna as <-;
    (assert (rb = 0 \/ rb = 1 \/ rb = 2 \/ rb = 3 \/ rb = 4 \/ rb = 5 \/ rb = 6 \/
             rb = 7 \/ rb = 8 \/ rb = 9 \/ rb = 10 \/ rb = 11)
      as [->|[->|[->|[->|[->|[->|[->|[->|[->|[->|[->| ->]]]]]]]]]]] by lia);
    vm_compute in Hnb; injection Hnb as <-;
    vm_compute in Heq;
    simplify_eq/=;
    first [ done
          | exfalso; apply Hta; reflexivity
          | exfalso; apply Htb; reflexivity ].
Qed.

(** X19: [midi_note_to_name] returns a name for every integer, negative
    ones included, and different notes have different names. *)
Theorem note_names_are_unambiguous :
  (forall a, is_Some (midi_note_to_name a)) /\
  (forall a b, midi_note_to_name a = midi_note_to_name b -> a = b).
Proof.
  assert (Hdef : forall a, exists name,
             PyList.index note_names (a `mod` 12) = Some name /\
             midi_note_to_name a = Some (name +:+ pretty (a / 12 - 1))).
  { intros a.
    destruct (note_name_of_residue (a `mod` 12)) as (name & Hname & _).
    { apply Z.mod_pos_bound. lia. }
    exists name. split; [done|]. unfold midi_note_to_name. by rewrite Hname. }
  split.
  - intros a. destruct (Hdef a) as (name & _ & ->). by eexists.
  - intros a b Heq.
    destruct (Hdef a) as (na & Hna & Ha). destruct (Hdef b) as (nb & Hnb & Hb).
    rewrite Ha, Hb in Heq. injection Heq as Heq.
    destruct (note_names_unambiguous _ _ _ _ _ _
                (Z.mod_pos_bound a 12 ltac:(lia))
                (Z.mod_pos_bound b 12 ltac:(lia))
                Hna Hnb (pretty_Z_no_sharp _) (pretty_Z_no_sharp _) Heq)
      as [Hmod Hoct].
    apply (inj pretty) in Hoct.
    rewrite (Z.div_mod a 12), (Z.div_mod b 12) by lia. lia.
Qed.

Lemma note_names_are_unambiguous_witness :
  midi_note_to_name 60 <> midi_note_to_name 72 /\
  is_Some (midi_note_to_name (-1)).
Proof.
  destruct note_names_are_unambiguous as [Htotal Hinj]. split.
  - intros H. apply Hinj in H. discriminate H.
  - apply Htotal.
Defined.

(** Middle C is [C4]; the note below 0 is [B-2]. *)
Example note_name_samples :
  midi_note_to_name 60 = Some "C4" /\ midi_note_to_name 61 = Some "C#4" /\
  midi_note_to_name (-1) = Some "B-2".
Proof. repeat split; vm_compute; reflexivity. Qed.

End Names.
